(** * mpv IPC session: a shallow embedding of [src/index.ts]

    The module [index.ts] exports one function, [Mpv], whose closure holds
    the whole session: the subprocess handle, the socket, the request
    counter, the pending-request [Map], the observer [Map] and the
    outbound queue.  The closure variables become the fields of a record
    [State]; every inner function ([command], [write], [ready], [handle],
    [data], [observe], [unobserve], [end], [kill], [start], [connect])
    becomes a function on that record.  Effects that leave the closure
    (lines written to the socket, events emitted on the session object,
    subscriber callbacks invoked, promises settled) are appended to log
    fields of the state, in program order; spawned processes and
    connection attempts are counted.

    Conventions.
    - Request and observer ids are JavaScript numbers produced by [++] from
      [0]; they are taken in [N], which is exact for such counters below
      [2^53] increments.
    - A JavaScript [Map] iterates in insertion order and [set] on a present
      key keeps its position: [JsMap] is an association list with exactly
      that discipline.
    - The field [issued] is a log like [written]: [command] appends the id
      it takes, so that the sequence of ids can be stated.
    - Observed property names are strings other than the member names of
      [Map.prototype], so that [observers[x] = ...] adds a property and
      leaves the methods of the map alone.
    - Subscriber callbacks and the listeners of the session object are
      caller code.  The model records every call of them ([invoked],
      [emitted]) and takes the callee to return normally without calling
      the session's methods while it runs; what the caller does between
      two events is a trace of [Op]s.  In particular the caller listens
      to ["error"] (an emitter nobody listens to throws on
      [emit("error", ...)]).
    - Whether [cp.spawn] throws, and when the socket or the subprocess
      report what, is decided outside the module: these are the [Op]s of
      the transition system.
    - [JSON.parse] and [String.prototype.trim] belong to the runtime, not to
      the repository; the inbound path takes them as section variables.
    - The text [JSON.stringify({request_id, command}) + "\n"] is kept as the
      structured value [WireMessage] it encodes. *)

From Stdlib Require Import ZArith NArith QArith Lia Ascii String.
From stdpp Require Import base tactics option list strings gmap.

Local Open Scope N_scope.
Set Warnings "-register-all".

(** ** Insertion-ordered maps ([Map] of ECMAScript) *)

Module JsMap.
Section Defs.
Context {K V : Type} `{EqDecision K}.

Definition t := list (K * V).

Definition empty : t := [].

Fixpoint get (k : K) (m : t) : option V :=
  match m with
  | [] => None
  | (k', v) :: m' => if decide (k = k') then Some v else get k m'
  end.

Definition has (k : K) (m : t) : bool :=
  match get k m with Some _ => true | None => false end.

(** [set] overwrites in place when the key is present, appends otherwise. *)
Fixpoint set (k : K) (v : V) (m : t) : t :=
  match m with
  | [] => [(k, v)]
  | (k', v') :: m' =>
      if decide (k = k') then (k, v) :: m' else (k', v') :: set k v m'
  end.

(** A map holds at most one entry per key; [delete] removes it. *)
Fixpoint delete (k : K) (m : t) : t :=
  match m with
  | [] => []
  | (k', v') :: m' =>
      if decide (k = k') then delete k m' else (k', v') :: delete k m'
  end.

Definition keys (m : t) : list K := fst <$> m.
Definition values (m : t) : list V := snd <$> m.

End Defs.
Global Arguments t : clear implicits.
End JsMap.

(** ** Values, errors and wire messages *)

(** The values the session handles: JSON values as delivered by
    [JSON.parse], [undefined] (which callers may pass among command
    arguments) and the closure [observe] returns.  Numbers are rationals:
    every finite double is one, and the session never computes on payload
    numbers. *)
Inductive Value : Type :=
| VUndefined
| VNull
| VBool (b : bool)
| VNum (q : Q)
| VStr (s : string)
| VArr (l : list Value)
| VObj (fields : list (string * Value))
| VUnobserve (x : string) (fn : nat).
    (* the closure [() => unobserve(x, fn)] returned by [observe] *)

(** [x !== undefined] *)
Definition defined (v : Value) : bool :=
  match v with VUndefined => false | _ => true end.

(** ECMAScript truthiness, as used by [if (x.event)]. *)
Definition truthy (v : Value) : bool :=
  match v with
  | VUndefined | VNull => false
  | VBool b => b
  | VNum q => negb (Qeq_bool q 0)
  | VStr s => negb (String.eqb s EmptyString)
  | VArr _ | VObj _ | VUnobserve _ _ => true
  end.

(** [x === "lit"] for a string literal. *)
Definition is_str (lit : string) (v : Value) : bool :=
  match v with VStr s => String.eqb s lit | _ => false end.

(** A number that is a natural number, as a [Map] key of [requests]. *)
Definition as_id (v : Value) : option N :=
  match v with
  | VNum q =>
      if ((Qnum q mod Zpos (Qden q) =? 0) && (0 <=? Qnum q))%Z
      then Some (Z.to_N (Qnum q / Zpos (Qden q)))
      else None
  | _ => None
  end.

Definition VId (n : N) : Value := VNum (inject_Z (Z.of_N n)).

Fixpoint assoc (k : string) (l : list (string * Value)) : option Value :=
  match l with
  | [] => None
  | (k', v) :: l' => if String.eqb k k' then Some v else assoc k l'
  end.

Inductive Error : Type :=
| TypeError
| SyntaxError
| AssertionError (msg : string)
| ErrorMsg (msg : string)
    (* new Error(msg) *)
| CommandFailed (args : list Value) (error : Value)
    (* new Error(args.join(" ") + " - failed with error: " + x.error) *)
| ReplyError (x : Value)
    (* Object.assign(new Error(x.error), x) *)
| ConnectionError (code : string).

(** Outcome of a function body: normal completion or a thrown exception. *)
Inductive Completion (A : Type) : Type :=
| Normal (a : A)
| Throw (e : Error).
Global Arguments Normal {A} a.
Global Arguments Throw {A} e.

(** Property read [x.f] on a parsed value: [null.f] and [undefined.f]
    throw, primitives and arrays have none of the protocol's fields. *)
Definition field (f : string) (x : Value) : Completion Value :=
  match x with
  | VUndefined | VNull => Throw TypeError
  | VObj fs => Normal (default VUndefined (assoc f fs))
  | _ => Normal VUndefined
  end.

(** [ToString] and [ToPropertyKey] (in [new Error(v)], in [+] with a
    string, in [Array.prototype.join] and in the listener lookup of
    [emit]) throw a [TypeError] on an object whose own [toString] member
    is not callable: [Object.prototype.valueOf] then returns the object
    itself.  Members of an object or an array are JSON values, none of
    which is callable.  An array is joined from its elements, where
    [null] and [undefined] give the empty text. *)
Fixpoint stringifiable (v : Value) : bool :=
  match v with
  | VArr l => forallb stringifiable l
  | VObj fs => match assoc "toString" fs with Some _ => false | None => true end
  | _ => true
  end.

(** The line [JSON.stringify({ request_id, command }) + "\n"]. *)
Record WireMessage : Type := {
  request_id : N;
  wire_command : list Value;
}.

(** ** Promises

    Promises are numbered in allocation order.  The store keeps, for every
    settled promise, its settlement; for every pending one, the reactions
    attached with [then], [catch] or [await]; and the microtask queue. *)

Definition Promise := nat.
Definition Fn := nat.  (* identity of a subscriber callback *)

Inductive Settlement : Type :=
| Fulfilled (v : Value)
| Rejected (e : Error).

Inductive Reaction : Type :=
| ThenObserversSet (x : string) (id : N) (fn : Fn) (derived : Promise)
    (* index.ts:217-220, the callback passed to [then] in [observe] *)
| AwaitObserver (x : string) (fn : Fn) (result : Promise)
    (* index.ts:211-213, the rest of [observe] after [await] *)
| CatchEmitError
    (* index.ts:231, [.catch((e) => mpv.emit("error", e))] *).

Record Promises : Type := {
  allocated : nat;
  settled : list (Promise * Settlement);
  reactions : list (Promise * Reaction);
  jobs : list (Reaction * Settlement);
}.

(** ** The session state *)

Record Request : Type := {
  message : WireMessage;
  id : N;
  resolve : Promise;
  reject : Promise;
  args : list Value;
}.

Inductive MPV_STATUS : Type := stopped | starting | STARTED | ERRORED.

Global Instance MPV_STATUS_eq_dec : EqDecision MPV_STATUS.
Proof. solve_decision. Defined.

Record Observer : Type := {
  obs_id : N;
  fns : list Fn;   (* a [Set]: insertion-ordered, no duplicates *)
}.

(** Listeners on the subprocess handle. *)
Inductive Listener : Type :=
| OnceErrorReject (* index.ts:155 *)
| OnceCloseReject (* index.ts:156 *)
| OnCloseRestart  (* index.ts:167 *).

Record ChildProcess : Type := {
  pid : nat;
  killed : bool;
  exited : bool;   (* the operating-system process is gone *)
  listeners : list Listener;
  unrefed : bool;
}.

Inductive Emitted : Type :=
| EmitRestarted
| EmitError (e : Error)
| EmitEvent (name : Value) (x : Value).

Record State : Type := {
  status : MPV_STATUS;
  process : option ChildProcess;
  spawned : nat;                         (* calls of [cp.spawn] so far *)
  socket_open : bool;                    (* [socket.readyState === "open"] *)
  written : list WireMessage;            (* [socket.write], oldest first *)
  connects : nat;                        (* calls of [socket.connect] *)
  observers : JsMap.t string Observer;   (* entries of the [Map] *)
  observers_props : list (string * Promise);  (* [observers[x] = ...] *)
  requests : JsMap.t N Request;
  observeId : N;
  requestId : N;
  queue : list Request;
  emitted : list Emitted;                (* [mpv.emit], oldest first *)
  invoked : list (Fn * Value);           (* subscriber calls, oldest first *)
  issued : list N;                       (* ids taken by [command], oldest first *)
  promises : Promises;
}.

(** Field updates. *)
Definition set_status (x : MPV_STATUS) (s : State) : State :=
  {| status := x; process := process s; spawned := spawned s;
     socket_open := socket_open s; written := written s;
     connects := connects s; observers := observers s;
     observers_props := observers_props s; requests := requests s;
     observeId := observeId s; requestId := requestId s; queue := queue s;
     emitted := emitted s; invoked := invoked s; issued := issued s;
     promises := promises s |}.

Definition set_process (x : option ChildProcess) (s : State) : State :=
  {| status := status s; process := x; spawned := spawned s;
     socket_open := socket_open s; written := written s;
     connects := connects s; observers := observers s;
     observers_props := observers_props s; requests := requests s;
     observeId := observeId s; requestId := requestId s; queue := queue s;
     emitted := emitted s; invoked := invoked s; issued := issued s;
     promises := promises s |}.

Definition set_spawned (x : nat) (s : State) : State :=
  {| status := status s; process := process s; spawned := x;
     socket_open := socket_open s; written := written s;
     connects := connects s; observers := observers s;
     observers_props := observers_props s; requests := requests s;
     observeId := observeId s; requestId := requestId s; queue := queue s;
     emitted := emitted s; invoked := invoked s; issued := issued s;
     promises := promises s |}.

Definition set_socket_open (x : bool) (s : State) : State :=
  {| status := status s; process := process s; spawned := spawned s;
     socket_open := x; written := written s;
     connects := connects s; observers := observers s;
     observers_props := observers_props s; requests := requests s;
     observeId := observeId s; requestId := requestId s; queue := queue s;
     emitted := emitted s; invoked := invoked s; issued := issued s;
     promises := promises s |}.

Definition set_written (x : list WireMessage) (s : State) : State :=
  {| status := status s; process := process s; spawned := spawned s;
     socket_open := socket_open s; written := x;
     connects := connects s; observers := observers s;
     observers_props := observers_props s; requests := requests s;
     observeId := observeId s; requestId := requestId s; queue := queue s;
     emitted := emitted s; invoked := invoked s; issued := issued s;
     promises := promises s |}.

Definition set_connects (x : nat) (s : State) : State :=
  {| status := status s; process := process s; spawned := spawned s;
     socket_open := socket_open s; written := written s;
     connects := x; observers := observers s;
     observers_props := observers_props s; requests := requests s;
     observeId := observeId s; requestId := requestId s; queue := queue s;
     emitted := emitted s; invoked := invoked s; issued := issued s;
     promises := promises s |}.

Definition set_observers (x : JsMap.t string Observer) (s : State) : State :=
  {| status := status s; process := process s; spawned := spawned s;
     socket_open := socket_open s; written := written s;
     connects := connects s; observers := x;
     observers_props := observers_props s; requests := requests s;
     observeId := observeId s; requestId := requestId s; queue := queue s;
     emitted := emitted s; invoked := invoked s; issued := issued s;
     promises := promises s |}.

Definition set_observers_props (x : list (string * Promise)) (s : State)
  : State :=
  {| status := status s; process := process s; spawned := spawned s;
     socket_open := socket_open s; written := written s;
     connects := connects s; observers := observers s;
     observers_props := x; requests := requests s;
     observeId := observeId s; requestId := requestId s; queue := queue s;
     emitted := emitted s; invoked := invoked s; issued := issued s;
     promises := promises s |}.

Definition set_requests (x : JsMap.t N Request) (s : State) : State :=
  {| status := status s; process := process s; spawned := spawned s;
     socket_open := socket_open s; written := written s;
     connects := connects s; observers := observers s;
     observers_props := observers_props s; requests := x;
     observeId := observeId s; requestId := requestId s; queue := queue s;
     emitted := emitted s; invoked := invoked s; issued := issued s;
     promises := promises s |}.

Definition set_observeId (x : N) (s : State) : State :=
  {| status := status s; process := process s; spawned := spawned s;
     socket_open := socket_open s; written := written s;
     connects := connects s; observers := observers s;
     observers_props := observers_props s; requests := requests s;
     observeId := x; requestId := requestId s; queue := queue s;
     emitted := emitted s; invoked := invoked s; issued := issued s;
     promises := promises s |}.

Definition set_requestId (x : N) (s : State) : State :=
  {| status := status s; process := process s; spawned := spawned s;
     socket_open := socket_open s; written := written s;
     connects := connects s; observers := observers s;
     observers_props := observers_props s; requests := requests s;
     observeId := observeId s; requestId := x; queue := queue s;
     emitted := emitted s; invoked := invoked s; issued := issued s;
     promises := promises s |}.

Definition set_queue (x : list Request) (s : State) : State :=
  {| status := status s; process := process s; spawned := spawned s;
     socket_open := socket_open s; written := written s;
     connects := connects s; observers := observers s;
     observers_props := observers_props s; requests := requests s;
     observeId := observeId s; requestId := requestId s; queue := x;
     emitted := emitted s; invoked := invoked s; issued := issued s;
     promises := promises s |}.

Definition set_emitted (x : list Emitted) (s : State) : State :=
  {| status := status s; process := process s; spawned := spawned s;
     socket_open := socket_open s; written := written s;
     connects := connects s; observers := observers s;
     observers_props := observers_props s; requests := requests s;
     observeId := observeId s; requestId := requestId s; queue := queue s;
     emitted := x; invoked := invoked s; issued := issued s;
     promises := promises s |}.

Definition set_invoked (x : list (Fn * Value)) (s : State) : State :=
  {| status := status s; process := process s; spawned := spawned s;
     socket_open := socket_open s; written := written s;
     connects := connects s; observers := observers s;
     observers_props := observers_props s; requests := requests s;
     observeId := observeId s; requestId := requestId s; queue := queue s;
     emitted := emitted s; invoked := x; issued := issued s;
     promises := promises s |}.

Definition set_promises (x : Promises) (s : State) : State :=
  {| status := status s; process := process s; spawned := spawned s;
     socket_open := socket_open s; written := written s;
     connects := connects s; observers := observers s;
     observers_props := observers_props s; requests := requests s;
     observeId := observeId s; requestId := requestId s; queue := queue s;
     emitted := emitted s; invoked := invoked s; issued := issued s;
     promises := x |}.

Definition set_issued (x : list N) (s : State) : State :=
  {| status := status s; process := process s; spawned := spawned s;
     socket_open := socket_open s; written := written s;
     connects := connects s; observers := observers s;
     observers_props := observers_props s; requests := requests s;
     observeId := observeId s; requestId := requestId s; queue := queue s;
     emitted := emitted s; invoked := invoked s; issued := x;
     promises := promises s |}.

(** The closure right after its variables are initialised
    (index.ts:70-87): no process, socket not connected, empty maps. *)
Definition initial : State :=
  {| status := stopped; process := None; spawned := 0%nat;
     socket_open := false; written := []; connects := 0%nat;
     observers := JsMap.empty; observers_props := [];
     requests := JsMap.empty; observeId := 0; requestId := 0; queue := [];
     emitted := []; invoked := []; issued := [];
     promises := {| allocated := 0%nat; settled := []; reactions := [];
                    jobs := [] |} |}.

(** ** Promise store operations *)

Definition new_promise (s : State) : Promise * State :=
  let ps := promises s in
  (allocated ps,
   set_promises {| allocated := S (allocated ps); settled := settled ps;
                   reactions := reactions ps; jobs := jobs ps |} s).

Fixpoint settlement_of (p : Promise) (l : list (Promise * Settlement))
  : option Settlement :=
  match l with
  | [] => None
  | (p', o) :: l' => if Nat.eqb p p' then Some o else settlement_of p l'
  end.

(** [resolve(v)] / [reject(e)] of promise [p]: ignored when [p] is already
    settled; otherwise the reactions waiting on [p] become microtasks. *)
Definition settle (p : Promise) (o : Settlement) (s : State) : State :=
  let ps := promises s in
  match settlement_of p (settled ps) with
  | Some _ => s
  | None =>
      let mine := List.filter (fun r => Nat.eqb (fst r) p) (reactions ps) in
      let rest :=
        List.filter (fun r => negb (Nat.eqb (fst r) p)) (reactions ps) in
      set_promises
        {| allocated := allocated ps;
           settled := settled ps ++ [(p, o)];
           reactions := rest;
           jobs := jobs ps ++ List.map (fun r => (snd r, o)) mine |} s
  end.

(** [p.then(...)], [p.catch(...)] or [await p]. *)
Definition react (p : Promise) (r : Reaction) (s : State) : State :=
  let ps := promises s in
  match settlement_of p (settled ps) with
  | Some o =>
      set_promises
        {| allocated := allocated ps; settled := settled ps;
           reactions := reactions ps; jobs := jobs ps ++ [(r, o)] |} s
  | None =>
      set_promises
        {| allocated := allocated ps; settled := settled ps;
           reactions := reactions ps ++ [(p, r)]; jobs := jobs ps |} s
  end.

(** [mpv.emit(...)] and a call of a subscriber callback, as the session
    sees them: the call is recorded (see the conventions on caller
    code). *)
Definition emit (e : Emitted) (s : State) : State :=
  set_emitted (emitted s ++ [e]) s.

Definition invoke (fn : Fn) (v : Value) (s : State) : State :=
  set_invoked (invoked s ++ [(fn, v)]) s.

(** ** Request correlator: [write], [command], [ready] *)

(** index.ts:294-297 *)
Definition write (request : Request) (s : State) : State :=
  let s := set_written (written s ++ [message request]) s in
  set_requests (JsMap.set (id request) request (requests s)) s.

(** index.ts:275-292.  The executor of [new Promise] runs synchronously. *)
Definition command (args : list Value) (s : State) : Promise * State :=
  let '(p, s) := new_promise s in
  let id := requestId s + 1 in
  let s := set_issued (issued s ++ [id]) (set_requestId id s) in
  let request :=
    {| message := {| request_id := id;
                     wire_command := List.filter defined args |};
       id := id; resolve := p; reject := p; args := args |} in
  (p, if socket_open s then write request s
      else set_queue (queue s ++ [request]) s).

Definition observe_property (id : N) (x : string) : list Value :=
  [VStr "observe_property"; VId id; VStr x].

(** index.ts:235-240.  [observers.forEach] and [queue.forEach] run callbacks
    that neither add nor remove entries of the collection they walk;
    [requests.forEach(write)] re-sets keys that are present, which keeps
    every entry in place.  Each loop is therefore a fold over the entries
    the collection holds when the loop starts. *)

(** line 236 *)
Definition resubscribe (s : State) : State :=
  fold_left
    (fun s e => snd (command (observe_property (obs_id (snd e)) (fst e)) s))
    (observers s) s.

(** line 237 *)
Definition resend (s : State) : State :=
  fold_left (fun s e => write (snd e) s) (requests s) s.

(** lines 238-239 *)
Definition flush (s : State) : State :=
  set_queue [] (fold_left (fun s r => write r s) (queue s) s).

Definition ready (s : State) : State := flush (resend (resubscribe s)).

(** ** Dispatch of inbound frames: [handle], [data] *)

(** A handler either completes or throws; state changes made before the
    exception stay. *)
Inductive Result : Type :=
| Ok (s : State)
| Thrown (e : Error) (s : State).

Definition state_of (r : Result) : State :=
  match r with Ok s | Thrown _ s => s end.

(** [observers.get(x.name)] for a parsed [x.name]: the registry is keyed by
    property names, so only a string can be present. *)
Definition observer_of (name : Value) (s : State) : option Observer :=
  match name with
  | VStr k => JsMap.get k (observers s)
  | _ => None
  end.

(** [requests.get(x.request_id)], with the key it was found under: the
    keys of [requests] are natural numbers, nothing else can be present. *)
Definition request_of (rid : Value) (s : State) : option (N * Request) :=
  match as_id rid with
  | Some k =>
      match JsMap.get k (requests s) with
      | Some request => Some (k, request)
      | None => None
      end
  | None => None
  end.

(** index.ts:249-273.  Three places convert a parsed value to text and
    throw when that fails: the listener lookup of [mpv.emit(x.event, x)]
    (line 254), [new Error(x.error)] (line 260) and the message built
    from [request.args.join(" ")] and [x.error] (line 270).  The last one
    comes after [requests.delete]: the request is gone and its promise is
    left unsettled. *)
Definition handle (x : Value) (s : State) : Result :=
  match field "event" x with
  | Throw e => Thrown e s
  | Normal ev =>
      let get f := match field f x with Normal v => v | Throw _ => VUndefined end in
      if truthy ev then
        if is_str "property-change" ev then
          match observer_of (get "name") s with
          | Some o =>
              Ok (fold_left (fun s fn => invoke fn (get "data") s) (fns o) s)
          | None => Ok s
          end
        else if stringifiable ev then Ok (emit (EmitEvent ev x) s)
        else Thrown TypeError s
      else
        match request_of (get "request_id") s with
        | None =>
            if is_str "success" (get "error") then Ok s
            else if stringifiable (get "error")
            then Ok (emit (EmitError (ReplyError x)) s)
            else Thrown TypeError s
        | Some (k, request) =>
            let s := set_requests (JsMap.delete k (requests s)) s in
            if is_str "success" (get "error")
            then Ok (settle (resolve request) (Fulfilled (get "data")) s)
            else if forallb stringifiable (args request)
                    && stringifiable (get "error")
            then Ok (settle (reject request)
                       (Rejected (CommandFailed (args request) (get "error"))) s)
            else Thrown TypeError s
        end
  end.

(** [forEach(handle)]: an exception leaves the loop. *)
Fixpoint forEach_handle (xs : list Value) (s : State) : Result :=
  match xs with
  | [] => Ok s
  | x :: xs' =>
      match handle x s with
      | Ok s' => forEach_handle xs' s'
      | Thrown e s' => Thrown e s'
      end
  end.

Definition LF : Ascii.ascii := Ascii.ascii_of_nat 10.
Definition CR : Ascii.ascii := Ascii.ascii_of_nat 13.

Definition chomp_cr (rev_segment : list Ascii.ascii) : list Ascii.ascii :=
  match rev_segment with
  | c :: rest => if Ascii.eqb c CR then rest else rev_segment
  | [] => []
  end.

(** [x.split(/\r?\n/g)]: every line feed ends a segment, and takes a
    carriage return standing right before it along.  [acc] is the current
    segment, last character first. *)
Fixpoint split_lines (acc : list Ascii.ascii) (x : string) : list string :=
  match x with
  | EmptyString => [String.string_of_list_ascii (rev acc)]
  | String c x' =>
      if Ascii.eqb c LF
      then String.string_of_list_ascii (rev (chomp_cr acc)) :: split_lines [] x'
      else split_lines (c :: acc) x'
  end.

Definition nonempty (x : string) : bool := negb (String.eqb x EmptyString).

Section Inbound.
(** [JSON.parse]: [None] stands for the [SyntaxError] it throws. *)
Variable JSON_parse : string -> option Value.
Variable trim : string -> string.

(** [.map((x) => JSON.parse(x.trim()))]: the whole array is mapped before
    anything else happens; the first exception leaves the [map]. *)
Fixpoint parse_all (segments : list string) : Completion (list Value) :=
  match segments with
  | [] => Normal []
  | x :: rest =>
      match JSON_parse (trim x) with
      | None => Throw SyntaxError
      | Some v =>
          match parse_all rest with
          | Normal vs => Normal (v :: vs)
          | Throw e => Throw e
          end
      end
  end.

(** index.ts:242-247 *)
Definition data (x : string) (s : State) : Result :=
  match parse_all (List.filter nonempty (split_lines [] x)) with
  | Throw e => Thrown e s
  | Normal xs => forEach_handle xs s
  end.
End Inbound.

(** ** Observation registry: [observe], [unobserve] *)

Fixpoint prop_get (x : string) (props : list (string * Promise))
  : option Promise :=
  match props with
  | [] => None
  | (k, p) :: rest => if String.eqb x k then Some p else prop_get x rest
  end.

(** [observers[x] = p]: the latest assignment shadows earlier ones. *)
Definition prop_set (x : string) (p : Promise)
  (props : list (string * Promise)) : list (string * Promise) :=
  (x, p) :: props.

(** [observer.fns.add(fn)] where [observer] is the value the awaited
    promise was fulfilled with, that is the [data] of a reply (line 219
    returns [result]), a JSON value: reading [.fns] of [undefined] or
    [null] throws, and no JSON value carries a callable [add]. *)
Definition reply_fns_add (observer : Value) : Completion unit :=
  match field "fns" observer with
  | Throw e => Throw e
  | Normal f =>
      match field "add" f with
      | Throw e => Throw e
      | Normal _ => Throw TypeError
      end
  end.

(** index.ts:209-222.  [observe] is an [async] function: the call returns
    a promise at once.  In the first branch the body stops at [await] and
    goes on in a microtask; in the second it runs to the end, so the
    returned promise is fulfilled before the subscribe command is
    answered. *)
Definition observe (x : string) (fn : Fn) (s : State) : Promise * State :=
  let '(result, s) := new_promise s in
  if JsMap.has x (observers s) then
    match prop_get x (observers_props s) with
    | Some p => (result, react p (AwaitObserver x fn result) s)
    | None =>
        let ps := promises s in
        (result,
         set_promises
           {| allocated := allocated ps; settled := settled ps;
              reactions := reactions ps;
              jobs := jobs ps
                      ++ [(AwaitObserver x fn result, Fulfilled VUndefined)] |}
           s)
    end
  else
    let id := observeId s + 1 in
    let s := set_observeId id s in
    let '(p, s) := command (observe_property id x) s in
    let '(derived, s) := new_promise s in
    let s := react p (ThenObserversSet x id fn derived) s in
    let s := set_observers_props (prop_set x derived (observers_props s)) s in
    (result, settle result (Fulfilled (VUnobserve x fn)) s).

(** [fns.delete(fn)] *)
Definition fns_delete (fn : Fn) (l : list Fn) : list Fn :=
  List.filter (fun f => negb (Nat.eqb f fn)) l.

(** index.ts:224-233.  The body has no [await]: it runs inside the call.
    [observer.fns.delete(fn)] mutates the [Set] held by the entry, which
    keeps its place in the [Map]. *)
Definition unobserve (x : string) (fn : Fn) (s : State) : Result :=
  match JsMap.get x (observers s) with
  | None => Thrown TypeError s
  | Some observer =>
      let fns' := fns_delete fn (fns observer) in
      let s := set_observers
                 (JsMap.set x {| obs_id := obs_id observer; fns := fns' |}
                            (observers s)) s in
      match fns' with
      | [] =>
          let s := set_observers (JsMap.delete x (observers s)) s in
          let '(p, s) := command [VStr "unobserve_property";
                                  VId (obs_id observer)] s in
          Ok (react p CatchEmitError s)
      | _ :: _ => Ok s
      end
  end.

(** ** Microtasks *)

(** One promise job. *)
Definition run_job (r : Reaction) (o : Settlement) (s : State) : State :=
  match r, o with
  | ThenObserversSet x id fn derived, Fulfilled result =>
      let s := set_observers
                 (JsMap.set x {| obs_id := id; fns := [fn] |} (observers s))
                 s in
      settle derived (Fulfilled result) s
  | ThenObserversSet _ _ _ derived, Rejected e => settle derived (Rejected e) s
  | AwaitObserver x fn result, Fulfilled observer =>
      match reply_fns_add observer with
      | Throw e => settle result (Rejected e) s
      | Normal _ => settle result (Fulfilled (VUnobserve x fn)) s
      end
  | AwaitObserver _ _ result, Rejected e => settle result (Rejected e) s
  | CatchEmitError, Rejected e => emit (EmitError e) s
  | CatchEmitError, Fulfilled _ => s
  end.

Definition pop_job (s : State) : State :=
  let ps := promises s in
  set_promises {| allocated := allocated ps; settled := settled ps;
                  reactions := reactions ps; jobs := tl (jobs ps) |} s.

Fixpoint drain (fuel : nat) (s : State) : State :=
  match fuel with
  | O => s
  | S fuel' =>
      match jobs (promises s) with
      | [] => s
      | (r, o) :: _ => drain fuel' (run_job r o (pop_job s))
      end
  end.

(** The microtask checkpoint after a handler returns.  A job never attaches
    a reaction, so queued jobs plus waiting reactions bound the work. *)
Definition run_microtasks (s : State) : State :=
  drain (length (jobs (promises s)) + length (reactions (promises s))) s.

(** ** Process supervisor: [kill], [end], [error], [start] *)

Definition with_killed (b : bool) (p : ChildProcess) : ChildProcess :=
  {| pid := pid p; killed := b; exited := exited p;
     listeners := listeners p; unrefed := unrefed p |}.

Definition with_listeners (l : list Listener) (p : ChildProcess)
  : ChildProcess :=
  {| pid := pid p; killed := killed p; exited := exited p;
     listeners := l; unrefed := unrefed p |}.

Definition with_unrefed (b : bool) (p : ChildProcess) : ChildProcess :=
  {| pid := pid p; killed := killed p; exited := exited p;
     listeners := listeners p; unrefed := b |}.

Definition with_exited (b : bool) (p : ChildProcess) : ChildProcess :=
  {| pid := pid p; killed := killed p; exited := b;
     listeners := listeners p; unrefed := unrefed p |}.

(** index.ts:130-132.  [ChildProcess.kill] sets [killed] when the signal
    could be delivered, which needs a process that has not exited. *)
Definition kill (s : State) : State :=
  match process s with
  | Some p =>
      if killed p then s
      else if exited p then s
      else set_process (Some (with_killed true p)) s
  | None => s
  end.

(** index.ts:120-128 *)
Definition end_ (s : State) : State :=
  match process s with
  | None => s
  | Some p =>
      let s := set_process (Some (with_listeners [] p)) s in
      let s := kill s in
      match process s with
      | Some p' => set_process (Some (with_unrefed true p')) s
      | None => s
      end
  end.

(** index.ts:134-136, the socket's ["error"] listener. *)
Definition error (s : State) : State :=
  if decide (status s = STARTED) then kill s else s.

(** [cp.spawn(path, args, ...)] either returns a new handle, nothing
    listening yet, or throws at once (an empty [path], an option of the
    wrong type, a system error other than the ones it reports through the
    handle's ["error"] event).  The call is counted in both cases; when it
    throws, [mpv.process] keeps its value. *)
Definition spawn (s : State) : State :=
  let n := S (spawned s) in
  set_process
    (Some {| pid := n; killed := false; exited := false;
             listeners := []; unrefed := false |})
    (set_spawned n s).

Definition spawn_throwing (s : State) : State :=
  set_spawned (S (spawned s)) s.

Definition add_listener (l : Listener) (s : State) : State :=
  match process s with
  | Some p => set_process (Some (with_listeners (listeners p ++ [l]) p)) s
  | None => s
  end.

(** [socketPath?.length] is truthy *)
Definition valid_path (socketPath : option string) : bool :=
  match socketPath with
  | Some p => negb (String.eqb p EmptyString)
  | None => false
  end.

Inductive StartStep : Type :=
| StartReturned (s : State)
    (* line 139: the guard returned, the promise of [start] is fulfilled *)
| StartAwaiting (s : State)
    (* suspended at the [await] of line 154 *)
| StartThrew (e : Error) (s : State)
    (* the [catch] block ran and re-threw *).

Section Supervisor.
Variable socketPath : option string.

(** index.ts:138-162, up to the [await]; [spawn_throws] is what [cp.spawn]
    throws, if anything.  When it throws, [start] lands in [catch] before
    any listener is attached and before [connect] is called.  Otherwise
    [connect()] registers its socket listeners, checks the path and calls
    [socket.connect]; when the assertion fails its promise is rejected
    and [start] lands in [catch]. *)
Definition start_with (spawn_throws : option Error) (s : State) : StartStep :=
  if decide (status s = stopped) then
    let s := set_status starting s in
    let s := match process s with Some _ => end_ s | None => s end in
    match spawn_throws with
    | Some e => StartThrew e (set_status ERRORED (spawn_throwing s))
    | None =>
        let s := spawn s in
        let s := add_listener OnceErrorReject s in
        let s := add_listener OnceCloseReject s in
        if valid_path socketPath
        then StartAwaiting (set_connects (S (connects s)) s)
        else StartThrew (AssertionError "Invalid socket path.")
                        (set_status ERRORED s)
    end
  else StartReturned s.

(** [start] when [cp.spawn] returns a handle. *)
Definition start_enter (s : State) : StartStep := start_with None s.

(** index.ts:164-170, after the awaited promise is fulfilled. *)
Definition start_connected (emit_restarted : bool) (s : State) : State :=
  let s := ready s in
  let s := set_status STARTED s in
  let s := if emit_restarted then emit EmitRestarted s else s in
  add_listener OnCloseRestart s.

(** index.ts:171-174, after the awaited promise is rejected. *)
Definition start_failed (s : State) : State := set_status ERRORED s.

(** index.ts:167-170, the ["close"] listener installed by a successful
    start.  When [start(true)] returns at its guard the promise it returns
    is fulfilled and the [catch] handler has nothing to report; when it
    throws, the handler emits ["error"]; when it is suspended, the handler
    waits with it. *)
Definition on_close_restart (s : State) : State :=
  let s := set_status STARTED s in
  match start_enter s with
  | StartReturned s' => s'
  | StartAwaiting s' => s'
  | StartThrew e s' => emit (EmitError e) s'
  end.

(** The subprocess closes: the handle's ["close"] listeners run in the
    order they were attached.  The [once] listener of line 156 rejects the
    promise [start] awaits, which matters only while [start] is suspended
    there, that is while the status is [starting]. *)
Definition run_close_listener (l : Listener) (s : State) : State :=
  match l with
  | OnceCloseReject =>
      if decide (status s = starting) then start_failed s else s
  | OnCloseRestart => on_close_restart s
  | OnceErrorReject => s
  end.

Definition process_closed (s : State) : State :=
  match process s with
  | None => s
  | Some p =>
      let ls := listeners p in
      let s := set_process
                 (Some (with_exited true
                          (with_listeners
                             (List.filter
                                (fun l => match l with
                                          | OnceCloseReject => false
                                          | _ => true
                                          end) ls) p))) s in
      fold_left (fun s l => run_close_listener l s) ls s
  end.

(** The subprocess handle reports ["error"] (the executable could not be
    started): the [once] listener of line 155 rejects the awaited promise. *)
Definition process_errored (s : State) : State :=
  match process s with
  | None => s
  | Some p =>
      if existsb (fun l => match l with OnceErrorReject => true | _ => false end)
                 (listeners p)
      then
        let s := set_process
                   (Some (with_listeners
                            (List.filter
                               (fun l => match l with
                                         | OnceErrorReject => false
                                         | _ => true
                                         end) (listeners p)) p)) s in
        if decide (status s = starting) then start_failed s else s
      else s
  end.

(** The socket reports ["ready"] while [start] awaits: [connect] resolves
    and [start] continues at line 164 with the socket open. *)
Definition socket_ready (emit_restarted : bool) (s : State) : State :=
  start_connected emit_restarted (set_socket_open true s).

(** The socket reports ["close"] after the time limit of [connect] has
    passed (index.ts:203-204): [connect] rejects, and with it the promise
    [start] awaits, if [start] is still waiting. *)
Definition connect_rejected (s : State) : State :=
  let s := set_socket_open false s in
  if decide (status s = starting) then start_failed s else s.
End Supervisor.

(** ** Connection manager: [connect]

    [connect] keeps its own variables ([error], the promise and its
    [resolve]/[reject]) and reacts to socket events and to the timer it
    sets.  The clock is an input: every ["close"] event carries the value
    [process.hrtime.bigint()] returns inside the listener, in nanoseconds.
    Once the promise is settled, the [finally] callback detaches the three
    listeners, so later socket events reach nobody. *)

Module Connect.
Local Open Scope Z_scope.

Record Options : Type := {
  connectStart : Z;   (* milliseconds, a BigInt *)
  timeout : Z;        (* milliseconds *)
}.

(** The defaults of the destructured parameter, index.ts:177-180; BigInt
    division truncates. *)
Definition defaults (hrtime : Z) : Options :=
  {| connectStart := hrtime ÷ 1000000; timeout := 5000 |}.

Record t : Type := {
  opts : Options;
  error : option Error;           (* [let error], set by [errored] *)
  promise : option Settlement;    (* [None] while pending *)
  attempts : nat;                 (* calls of [socket.connect] *)
  timers : list Z;                (* delays of the pending [setTimeout]s *)
}.

Inductive Event : Type :=
| Ready                   (* socket ["ready"] *)
| Errored (e : Error)     (* socket ["error"] *)
| Close (hrtime : Z)      (* socket ["close"], with the clock reading *)
| TimerFired.             (* the callback of line 205 runs *)

(** index.ts:181-196: the call itself.  A failed assertion rejects the
    returned promise before any connection attempt. *)
Definition connect (socketPath : option string) (o : Options)
  : Completion t :=
  if valid_path socketPath
  then Normal {| opts := o; error := None; promise := None;
                 attempts := 1; timers := [] |}
  else Throw (AssertionError "Invalid socket path.").

Definition elapsed (c : t) (hrtime : Z) : Z :=
  hrtime ÷ 1000000 - connectStart (opts c).

(** index.ts:202-206 *)
Definition close (hrtime : Z) (c : t) : t :=
  if elapsed c hrtime >? timeout (opts c)
  then {| opts := opts c; error := error c;
          promise := Some (Rejected (default (ErrorMsg "Timed out")
                                             (error c)));
          attempts := attempts c; timers := timers c |}
  else {| opts := opts c; error := error c; promise := promise c;
          attempts := attempts c; timers := timers c ++ [20] |}.

(** index.ts:198-200 *)
Definition errored (e : Error) (c : t) : t :=
  {| opts := opts c; error := Some e; promise := promise c;
     attempts := attempts c; timers := timers c |}.

Definition step (c : t) (ev : Event) : t :=
  match ev with
  | TimerFired =>
      match timers c with
      | [] => c
      | _ :: rest =>
          {| opts := opts c; error := error c; promise := promise c;
             attempts := S (attempts c); timers := rest |}
      end
  | _ =>
      match promise c with
      | Some _ => c
      | None =>
          match ev with
          | Ready =>
              {| opts := opts c; error := error c;
                 promise := Some (Fulfilled VUndefined);
                 attempts := attempts c; timers := timers c |}
          | Errored e => errored e c
          | Close hrtime => close hrtime c
          | TimerFired => c
          end
      end
  end.

Definition run (evs : list Event) (c : t) : t := fold_left step evs c.

(** The error of the last ["error"] event of a trace. *)
Fixpoint last_error (evs : list Event) (seen : option Error)
  : option Error :=
  match evs with
  | [] => seen
  | Errored e :: rest => last_error rest (Some e)
  | _ :: rest => last_error rest seen
  end.
End Connect.

(** ** Argument list of the subprocess ([Mpv], index.ts:89-107)

    Arrays are objects on a heap; [args] is a reference.  [slice(0)]
    allocates a new array, and every later [push] goes through the new
    reference. *)

Module Args.
Local Open Scope nat_scope.

Abbreviation Ref := nat (only parsing).
Abbreviation Heap := (gmap nat (list string)) (only parsing).

Definition socketArg : string := "--input-ipc-server".

(** [a.split("=")[0]]: the text before the first [=]. *)
Fixpoint before_eq (a : string) : string :=
  match a with
  | EmptyString => EmptyString
  | String c rest =>
      if Ascii.eqb c "="%char then EmptyString else String c (before_eq rest)
  end.

(** index.ts:299-308; [suffix] is [Math.random().toString(36).slice(2)]. *)
Definition randomPath (win32 : bool) (suffix : string) : string :=
  socketArg +:+ "=" +:+
  (if win32 then "\\.\pipe\mpvsocket" else "/tmp/mpvsocket") +:+ suffix.

Definition defaults (win32 : bool) (suffix : string) : list string :=
  [ randomPath win32 suffix;
    "--audio-fallback-to-null=yes";
    "--no-config";
    "--idle";
    "--msg-level=all=warn" ].

(** [args.some((x) => x.startsWith(a.split("=")[0])) || args.push(a)] *)
Definition add_default (a : string) (args : list string) : list string :=
  if existsb (fun x => String.prefix (before_eq a) x) args
  then args else args ++ [a].

Definition alloc (v : list string) (h : Heap) : Ref * Heap :=
  let r := fresh (dom h) in (r, <[r := v]> h).

(** [args = (args || []).slice(0)] followed by [defaults.forEach(...)].
    The parameter is [None] when the caller passes no array ([undefined]
    or [null]).  A dangling reference reads as the empty array. *)
Definition Mpv_args (args : option Ref) (win32 : bool) (suffix : string)
  (h : Heap) : Ref * Heap :=
  let source := match args with
                | Some r => default [] (h !! r)
                | None => []
                end in
  let '(copy, h) := alloc source h in
  (copy,
   fold_left
     (fun h a => <[copy := add_default a (default [] (h !! copy))]> h)
     (defaults win32 suffix) h).

(** [args.find((x) => x.startsWith(socketArg))?.slice(socketArg.length + 1)] *)
Definition socketPath (args : list string) : option string :=
  match List.find (fun x => String.prefix socketArg x) args with
  | Some x => Some (String.substring (String.length socketArg + 1)
                                     (String.length x) x)
  | None => None
  end.
End Args.

(** ** The session as a transition system

    One [Op] is one macrotask: a call made by the user of the session or an
    event delivered by the socket or the subprocess.  The microtask queue
    is emptied after each. *)

Inductive Op : Type :=
| Start                               (* [await start()] in [Mpv] *)
| StartSpawnThrows (e : Error)        (* the same, when [cp.spawn] throws [e] *)
| Command (args : list Value)         (* [mpv.command], [mpv.get], [mpv.set] *)
| Observe (x : string) (fn : Fn)
| Unobserve (x : string) (fn : Fn)    (* a call of the returned closure *)
| End
| SocketReady (emit_restarted : bool)
| SocketData (chunk : string)
| SocketError
| SocketClosed
| SocketClosedLate    (* ["close"] past the time limit of a pending [connect] *)
| ProcessError                        (* the subprocess handle's ["error"] *)
| ProcessClosed.

Section Session.
Variable JSON_parse : string -> option Value.
Variable trim : string -> string.
Variable socketPath : option string.

Definition handler (op : Op) (s : State) : State :=
  match op with
  | Start =>
      match start_enter socketPath s with
      | StartReturned s' | StartAwaiting s' | StartThrew _ s' => s'
      end
  | StartSpawnThrows e =>
      match start_with socketPath (Some e) s with
      | StartReturned s' | StartAwaiting s' | StartThrew _ s' => s'
      end
  | Command args => snd (command args s)
  | Observe x fn => snd (observe x fn s)
  | Unobserve x fn => state_of (unobserve x fn s)
  | End => end_ s
  | SocketReady emit_restarted =>
      if decide (status s = starting)
      then socket_ready emit_restarted s
      else set_socket_open true s
  | SocketData chunk => state_of (data JSON_parse trim chunk s)
  | SocketError => error s
  | SocketClosed => set_socket_open false s
  | SocketClosedLate => connect_rejected s
  | ProcessError => process_errored s
  | ProcessClosed => process_closed socketPath s
  end.

Definition exec (s : State) (op : Op) : State :=
  run_microtasks (handler op s).

Definition run (ops : list Op) (s : State) : State := fold_left exec ops s.
End Session.

(** ** Vocabulary of the statements *)

(** The variables the request correlator reads and writes. *)
Definition correlator (s : State) :=
  (requests s, queue s, requestId s, issued s, written s, socket_open s).

(** [1; 2; ...; n] *)
Definition ids_upto (n : nat) : list N := N.of_nat <$> seq 1 n.

(** Requests that are neither resolved nor rejected: those written and not
    yet answered, then those still queued. *)
Definition inflight (s : State) : list Request :=
  JsMap.values (requests s) ++ queue s.

Record correlator_inv (s : State) : Prop := {
  inv_issued : issued s = ids_upto (N.to_nat (requestId s));
  inv_nodup : NoDup (id <$> inflight s);
  inv_bound : Forall (fun r => id r <= requestId s) (inflight s);
  inv_keys : Forall (fun e => e.1 = id e.2) (requests s);
  inv_message : Forall (fun r => request_id (message r) = id r) (inflight s);
}.

(** The event [{"event": ev}]. *)
Definition event_frame (ev : Value) : Value := VObj [("event", ev)].

(** The reply [{"request_id": k, "error": err, "data": d}]. *)
Definition reply_frame (k : N) (err d : Value) : Value :=
  VObj [("request_id", VId k); ("error", err); ("data", d)].


(** Examples of states. *)

Definition get_volume : list Value := [VStr "get_property"; VStr "volume"].

Definition set_volume : list Value :=
  [VStr "set_property"; VStr "volume"; VNum (1 # 2)].

(** A started session with one unanswered request. *)
Definition started : State :=
  socket_ready false
    (match start_enter (Some "/tmp/mpvsocket") initial with
     | StartReturned s | StartAwaiting s | StartThrew _ s => s
     end).
Definition started_one_pending : State := (command get_volume started).2.

(** The line of the command [observe_property] with request id [rid] and
    subscription id [oid]. *)
Definition subscribe_message (rid oid : N) (x : string) : WireMessage :=
  {| request_id := rid; wire_command := observe_property oid x |}.

(** A registry holding one key with one callback. *)
Definition observing : State :=
  run_microtasks
    (state_of (handle (reply_frame 1 (VStr "success") VUndefined)
                      (observe "volume" 1%nat started).2)).

(** The text [{"event":"pause"}]. *)
Definition quote : string := String (Ascii.ascii_of_nat 34) EmptyString.
Definition pause_text : string :=
  "{" +:+ quote +:+ "event" +:+ quote +:+ ":"
      +:+ quote +:+ "pause" +:+ quote +:+ "}".
Definition pause_frame : Value := VObj [("event", VStr "pause")].

(** [JSON.parse] on the texts of the examples: the line above is an object
    with one field, [{}] is the empty object, [{] is not JSON. *)
Definition parse_sample (text : string) : option Value :=
  if String.eqb text pause_text then Some pause_frame
  else if String.eqb text "{}" then Some (VObj [])
  else None.

Definition trim_sample (text : string) : string := text.

Definition line_break : string := String LF EmptyString.



Definition sample_path : option string := Some "/tmp/mpvsocket".



(** Some element of [args] starts with the key of the default [a]. *)
Definition supplied_key (a : string) (args : list string) : bool :=
  existsb (fun x => String.prefix (Args.before_eq a) x) args.

(** No element of the list starts with the key of a later element. *)
Fixpoint independent (ds : list string) : bool :=
  match ds with
  | [] => true
  | a :: rest =>
      forallb (fun b => negb (String.prefix (Args.before_eq b) a)) rest
      && independent rest
  end.

(** The fixed part of the generated endpoint (index.ts:303-305). *)
Definition endpoint_base (win32 : bool) : string :=
  if win32 then "\\.\pipe\mpvsocket" else "/tmp/mpvsocket".

(** Numbers of ["close"] events and of timer callbacks in a trace. *)
Definition connect_closes (evs : list Connect.Event) : nat :=
  length (List.filter
            (fun ev => match ev with Connect.Close _ => true | _ => false end)
            evs).

Definition connect_fired (evs : list Connect.Event) : nat :=
  length (List.filter
            (fun ev => match ev with Connect.TimerFired => true | _ => false end)
            evs).


(** Lines joined by a separator, as the player sends them. *)
Fixpoint join_lines (sep : string) (lines : list string) : string :=
  match lines with
  | [] => EmptyString
  | [l] => l
  | l :: rest => l +:+ sep +:+ join_lines sep rest
  end.

Definition CRLF : string := String CR (String LF EmptyString).

(** The characters of a line: none is a line feed. *)
Definition one_line (l : string) : Prop :=
  ¬ In LF (String.list_ascii_of_string l).

(** The line does not end with a carriage return. *)
Definition no_trailing_cr (l : string) : Prop :=
  ∀ l', l ≠ l' +:+ String CR EmptyString.

(** [JSON.parse] on one more text: [null]. *)
Definition parse_sample_null (text : string) : option Value :=
  if String.eqb text "null" then Some VNull else parse_sample text.

(** The promises a reaction will settle are allocated ones. *)
Definition target_ok (n : nat) (r : Reaction) : Prop :=
  match r with
  | ThenObserversSet _ _ _ derived => (derived < n)%nat
  | AwaitObserver _ _ result => (result < n)%nat
  | CatchEmitError => True
  end.

(** Every promise the store or a request mentions has been allocated. *)
Record store_inv (s : State) : Prop := {
  st_settled :
    Forall (fun e => (e.1 < allocated (promises s))%nat)
           (settled (promises s));
  st_reactions :
    Forall (fun e => (e.1 < allocated (promises s))%nat
                     ∧ target_ok (allocated (promises s)) e.2)
           (reactions (promises s));
  st_jobs :
    Forall (fun j => target_ok (allocated (promises s)) j.1)
           (jobs (promises s));
  st_inflight :
    Forall (fun r => (resolve r < allocated (promises s))%nat
                     ∧ (reject r < allocated (promises s))%nat)
           (inflight s);
}.

(** The event [{"event": "property-change", "name": x, "data": v}]. *)
Definition property_change (x : string) (v : Value) : Value :=
  VObj [("event", VStr "property-change"); ("name", VStr x); ("data", v)].

(** * Properties *)

(** ** Facts about insertion-ordered maps *)

Module JsMapFacts.
Import JsMap.
Section Facts.
Context {K V : Type} `{EqDecision K}.
Implicit Types (k : K) (v : V) (m : JsMap.t K V).

Lemma get_set_eq k v m : get k (set k v m) = Some v.
Proof.
  induction m as [|[k' v'] m IH]; simpl.
  - by rewrite decide_True.
  - destruct (decide (k = k')) as [->|Hne]; simpl.
    + by rewrite decide_True.
    + by rewrite decide_False.
Qed.

Lemma get_set_ne k k' v m : k' ≠ k → get k' (set k v m) = get k' m.
Proof.
  intros Hne. induction m as [|[k0 v0] m IH]; simpl.
  - by rewrite decide_False.
  - destruct (decide (k = k0)) as [->|Hk]; simpl.
    + by rewrite !decide_False.
    + destruct (decide (k' = k0)); [done | apply IH].
Qed.

Lemma get_None_notin k m : get k m = None ↔ k ∉ keys m.
Proof.
  induction m as [|[k' v'] m IH]; simpl.
  - split; [intros _; apply not_elem_of_nil | done].
  - rewrite not_elem_of_cons. destruct (decide (k = k')) as [->|Hne].
    + split; [done | intros [? _]; done].
    + rewrite IH. tauto.
Qed.

(** Setting the value already stored under a key changes nothing. *)
Lemma set_same k v m : get k m = Some v → set k v m = m.
Proof.
  induction m as [|[k' v'] m IH]; simpl; [done|].
  destruct (decide (k = k')) as [->|Hne].
  - by intros [= ->].
  - intros Hg. by rewrite IH.
Qed.

(** Setting a fresh key appends the entry at the end. *)
Lemma set_fresh k v m : get k m = None → set k v m = m ++ [(k, v)].
Proof.
  induction m as [|[k' v'] m IH]; simpl; [done|].
  destruct (decide (k = k')) as [->|Hne]; [done|].
  intros Hg. by rewrite IH.
Qed.

Lemma delete_notin k m : get k m = None → delete k m = m.
Proof.
  induction m as [|[k' v'] m IH]; simpl; [done|].
  destruct (decide (k = k')); [done|]. intros Hg. by rewrite IH.
Qed.

Lemma get_delete_eq k m : get k (delete k m) = None.
Proof.
  induction m as [|[k' v'] m IH]; simpl; [done|].
  destruct (decide (k = k')) as [->|Hne]; [done|].
  simpl. by rewrite decide_False.
Qed.

Lemma get_Some_elem k v m : get k m = Some v → (k, v) ∈ m.
Proof.
  induction m as [|[k' v'] m IH]; simpl; [done|].
  destruct (decide (k = k')) as [->|Hne].
  - intros [= ->]. apply list_elem_of_here.
  - intros Hg. apply list_elem_of_further. by apply IH.
Qed.

Lemma get_of_elem k v m : NoDup (keys m) → (k, v) ∈ m → get k m = Some v.
Proof.
  unfold keys. induction m as [|[k' v'] m IH]; simpl.
  - by intros _ ?%elem_of_nil.
  - intros [Hk Hm]%NoDup_cons [Heq|Hin]%elem_of_cons.
    + injection Heq as -> ->. by rewrite decide_True.
    + destruct (decide (k = k')) as [->|Hne]; [|by apply IH].
      exfalso. apply Hk. apply list_elem_of_fmap. by exists (k', v).
Qed.

Lemma delete_sublist k m : delete k m `sublist_of` m.
Proof.
  induction m as [|[k' v'] m IH]; simpl; [done|].
  destruct (decide (k = k')); by constructor.
Qed.
End Facts.
End JsMapFacts.
Import JsMapFacts.

(** ** Microtasks always run to completion *)

Lemma settle_jobs_reactions p o s :
  (length (jobs (promises (settle p o s)))
   + length (reactions (promises (settle p o s))) =
   length (jobs (promises s)) + length (reactions (promises s)))%nat.
Proof.
  unfold settle. destruct (settlement_of p (settled (promises s))); [done|].
  simpl. rewrite length_app, length_map.
  generalize (reactions (promises s)) as l.
  induction l as [|r l IH]; simpl; [lia|].
  destruct r as [q r]; simpl. destruct (Nat.eqb q p); simpl in *; lia.
Qed.

Lemma run_job_jobs_reactions r o s :
  (length (jobs (promises (run_job r o s)))
   + length (reactions (promises (run_job r o s))) =
   length (jobs (promises s)) + length (reactions (promises s)))%nat.
Proof.
  destruct r, o; simpl; try done;
    try (by rewrite settle_jobs_reactions).
  destruct (reply_fns_add v); by rewrite settle_jobs_reactions.
Qed.

Lemma drain_empties fuel s :
  (length (jobs (promises s)) + length (reactions (promises s)) ≤ fuel)%nat →
  jobs (promises (drain fuel s)) = [].
Proof.
  revert s. induction fuel as [|fuel IH]; intros s Hle; simpl.
  - destruct (jobs (promises s)); [done | simpl in Hle; lia].
  - destruct (jobs (promises s)) as [|[r o] rest] eqn:Hj; [done|].
    apply IH. rewrite run_job_jobs_reactions. simpl. rewrite Hj.
    simpl in *. lia.
Qed.

Lemma run_microtasks_empties s : jobs (promises (run_microtasks s)) = [].
Proof. apply drain_empties. lia. Qed.

(** ** What leaves the correlator's variables alone *)

Lemma settle_correlator p o s : correlator (settle p o s) = correlator s.
Proof. unfold settle. by destruct (settlement_of _ _). Qed.

Lemma react_correlator p r s : correlator (react p r s) = correlator s.
Proof. unfold react. by destruct (settlement_of _ _). Qed.

Lemma run_job_correlator r o s : correlator (run_job r o s) = correlator s.
Proof.
  destruct r, o; simpl; try done; try (by rewrite settle_correlator).
  destruct (reply_fns_add v); by rewrite settle_correlator.
Qed.

Lemma drain_correlator fuel s : correlator (drain fuel s) = correlator s.
Proof.
  revert s. induction fuel as [|fuel IH]; intros s; simpl; [done|].
  destruct (jobs (promises s)) as [|[r o] rest]; [done|].
  by rewrite IH, run_job_correlator.
Qed.

Lemma run_microtasks_correlator s :
  correlator (run_microtasks s) = correlator s.
Proof. apply drain_correlator. Qed.

Lemma kill_correlator s : correlator (kill s) = correlator s.
Proof.
  unfold kill. destruct (process s) as [p|]; [|done].
  destruct (killed p); [done|]. by destruct (exited p).
Qed.

Lemma end_correlator s : correlator (end_ s) = correlator s.
Proof.
  unfold end_. destruct (process s) as [p|] eqn:Hp; [|done].
  set (s1 := set_process _ s).
  assert (correlator (kill s1) = correlator s) as Hk
    by (by rewrite kill_correlator).
  destruct (process (kill s1)); [|done]. by rewrite <- Hk.
Qed.

Lemma add_listener_correlator l s :
  correlator (add_listener l s) = correlator s.
Proof. unfold add_listener. by destruct (process s). Qed.

(** ** What leaves the supervisor's variables alone *)

Lemma settle_only_promises p o s :
  settle p o s = set_promises (promises (settle p o s)) s.
Proof. unfold settle. destruct (settlement_of _ _); by destruct s. Qed.

Lemma react_only_promises p r s :
  react p r s = set_promises (promises (react p r s)) s.
Proof. unfold react. destruct (settlement_of _ _); by destruct s. Qed.














Lemma end_only_process s : end_ s = set_process (process (end_ s)) s.
Proof.
  destruct s as [st pr sp so wr co ob op rq oi ri qu em iv iss ps].
  destruct pr as [[n k e ls u]|]; [destruct k, e|]; reflexivity.
Qed.

Lemma end_spawned s : spawned (end_ s) = spawned s.
Proof. by rewrite end_only_process. Qed.

(** ** What inbound frames leave alone *)






(** ** The invariant of the correlator *)

Lemma correlator_inv_frame s s' :
  requests s' = requests s → queue s' = queue s →
  requestId s' = requestId s → issued s' = issued s →
  correlator_inv s → correlator_inv s'.
Proof.
  intros Hr Hq Hi Hs [H1 H2 H3 H4 H5].
  split; unfold inflight in *; rewrite ?Hr, ?Hq, ?Hi, ?Hs; done.
Qed.

Lemma correlator_inv_same s s' :
  correlator s' = correlator s → correlator_inv s → correlator_inv s'.
Proof.
  unfold correlator. intros [= Hr Hq Hi Hs _ _].
  by apply correlator_inv_frame.
Qed.

Lemma ids_upto_S n : ids_upto (S n) = ids_upto n ++ [N.of_nat (S n)].
Proof. unfold ids_upto. by rewrite seq_S, fmap_app. Qed.

Lemma initial_inv : correlator_inv initial.
Proof. split; simpl; by constructor. Qed.

Lemma fresh_id s k :
  correlator_inv s → requestId s < k → JsMap.get k (requests s) = None.
Proof.
  intros [_ _ Hb Hk _] Hlt. apply get_None_notin. unfold JsMap.keys.
  intros ([k' r] & -> & Hin)%list_elem_of_fmap. simpl in Hlt.
  rewrite Forall_forall in Hk. specialize (Hk _ Hin). simpl in Hk. subst k'.
  rewrite Forall_forall in Hb.
  assert (r ∈ inflight s) as Hr.
  { unfold inflight, JsMap.values. apply elem_of_app. left.
    apply list_elem_of_fmap. by exists (id r, r). }
  specialize (Hb _ Hr). simpl in Hb. lia.
Qed.

Lemma values_snoc (m : JsMap.t N Request) k r q :
  JsMap.values (m ++ [(k, r)]) ++ q ≡ₚ r :: (JsMap.values m ++ q).
Proof.
  unfold JsMap.values. rewrite fmap_app. simpl.
  rewrite <- app_assoc. simpl. by rewrite <- Permutation_middle.
Qed.

Lemma queue_snoc (m : JsMap.t N Request) r q :
  JsMap.values m ++ (q ++ [r]) ≡ₚ r :: (JsMap.values m ++ q).
Proof. by rewrite app_assoc, <- Permutation_cons_append. Qed.

Lemma command_inv args s :
  correlator_inv s → correlator_inv (snd (command args s)).
Proof.
  intros Hinv. pose proof Hinv as [Hi Hn Hb Hk Hm].
  unfold command, new_promise. simpl.
  set (r := {| message := _ |}).
  assert (JsMap.get (requestId s + 1) (requests s) = None) as Hfresh
    by (apply fresh_id; [done | lia]).
  assert (issued s ++ [requestId s + 1]
          = ids_upto (N.to_nat (requestId s + 1))) as Hiss.
  { replace (N.to_nat (requestId s + 1)) with (S (N.to_nat (requestId s)))
      by lia.
    rewrite ids_upto_S, Hi. f_equal. f_equal. lia. }
  assert (id r ∉ id <$> inflight s) as Hnew.
  { intros (r' & Heq & Hin)%list_elem_of_fmap.
    rewrite Forall_forall in Hb. specialize (Hb _ Hin). simpl in Hb.
    rewrite <- Heq in Hb. simpl in Hb. lia. }
  assert (Forall (λ r0, id r0 ≤ requestId s + 1) (r :: inflight s)) as Hb'.
  { apply Forall_cons. split; [simpl; lia|].
    eapply Forall_impl; [exact Hb|]. simpl. intros; lia. }
  assert (NoDup (id <$> r :: inflight s)) as Hn'
    by (rewrite fmap_cons; by apply NoDup_cons).
  assert (Forall (λ r0, request_id (message r0) = id r0) (r :: inflight s))
    as Hm' by (by apply Forall_cons).
  destruct (socket_open s); simpl.
  - split; simpl; unfold inflight, write; simpl;
      rewrite ?(set_fresh _ _ _ Hfresh), ?values_snoc; try done.
    apply Forall_app. split; [done|]. by repeat constructor.
  - split; simpl; unfold inflight; simpl; rewrite ?queue_snoc; done.
Qed.

Lemma inv_nodup_keys s : correlator_inv s → NoDup (JsMap.keys (requests s)).
Proof.
  intros [_ Hn _ Hk _]. unfold inflight in Hn.
  rewrite fmap_app in Hn. apply NoDup_app in Hn as [Hn _].
  unfold JsMap.keys, JsMap.values in *. rewrite <- list_fmap_compose in Hn.
  erewrite list_fmap_ext; [exact Hn|].
  intros i e He. rewrite Forall_forall in Hk. simpl.
  apply Hk. by eapply list_elem_of_lookup_2.
Qed.

Lemma inv_entry s e :
  correlator_inv s → e ∈ requests s →
  JsMap.get (id e.2) (requests s) = Some e.2.
Proof.
  intros Hinv Hin. apply get_of_elem; [by apply inv_nodup_keys|].
  destruct Hinv as [_ _ _ Hk _]. rewrite Forall_forall in Hk.
  specialize (Hk _ Hin). destruct e as [k r]. simpl in *. by subst.
Qed.


Lemma fold_write_requests {A} (f : A → Request) l s :
  requests (fold_left (fun s e => write (f e) s) l s)
  = fold_left (fun m e => JsMap.set (id (f e)) (f e) m) l (requests s).
Proof. revert s. induction l as [|e l IH]; intros s; simpl; [done|]. by rewrite IH. Qed.

Lemma fold_write_frame {A} (f : A → Request) l s :
  let s' := fold_left (fun s e => write (f e) s) l s in
  queue s' = queue s ∧ requestId s' = requestId s ∧ issued s' = issued s
  ∧ socket_open s' = socket_open s ∧ observers s' = observers s
  ∧ promises s' = promises s ∧ emitted s' = emitted s.
Proof.
  revert s. induction l as [|e l IH]; intros s; simpl; [done|].
  apply (IH (write (f e) s)).
Qed.

Lemma fold_set_present (m : JsMap.t N Request) (l : list (N * Request)) :
  (∀ e, e ∈ l → JsMap.get (id e.2) m = Some e.2) →
  fold_left (fun m e => JsMap.set (id e.2) e.2 m) l m = m.
Proof.
  induction l as [|e l IH]; intros Hl; simpl; [done|].
  rewrite set_same by (apply Hl; apply list_elem_of_here).
  apply IH. intros e' He'. apply Hl. by apply list_elem_of_further.
Qed.

Lemma fold_set_fresh (m : JsMap.t N Request) (q : list Request) :
  Forall (fun e => e.1 = id e.2) m →
  NoDup (id <$> (JsMap.values m ++ q)) →
  fold_left (fun m r => JsMap.set (id r) r m) q m
  = m ++ ((fun r => (id r, r)) <$> q).
Proof.
  revert m. induction q as [|r q IH]; intros m Hk Hn; simpl.
  - by rewrite app_nil_r.
  - assert (JsMap.get (id r) m = None) as Hfresh.
    { apply get_None_notin. unfold JsMap.keys.
      intros ([k r'] & Heq & Hin)%list_elem_of_fmap. simpl in Heq.
      rewrite Forall_forall in Hk. specialize (Hk _ Hin). simpl in Hk.
      rewrite fmap_app in Hn. apply NoDup_app in Hn as (_ & Hd & _).
      apply (Hd (id r)).
      - apply list_elem_of_fmap. exists r'. split; [congruence|].
        unfold JsMap.values. apply list_elem_of_fmap. by exists (k, r').
      - rewrite fmap_cons. apply list_elem_of_here. }
    rewrite (set_fresh _ _ _ Hfresh). rewrite IH.
    + by rewrite <- app_assoc.
    + apply Forall_app. split; [done|]. by repeat constructor.
    + rewrite values_snoc. rewrite fmap_cons.
      rewrite fmap_app, fmap_cons in Hn.
      rewrite <- Permutation_middle in Hn. by rewrite fmap_app.
Qed.

Lemma resend_requests s :
  correlator_inv s → requests (resend s) = requests s.
Proof.
  intros Hinv. unfold resend. rewrite (fold_write_requests snd).
  apply fold_set_present. intros e He. by apply inv_entry.
Qed.

Lemma resend_inv s : correlator_inv s → correlator_inv (resend s).
Proof.
  intros Hinv. pose proof (fold_write_frame snd (requests s) s) as H.
  simpl in H. destruct H as (Hq & Hi & Hs & _).
  eapply correlator_inv_frame; [by apply resend_requests|..]; done.
Qed.

Lemma flush_requests s :
  correlator_inv s →
  requests (flush s) = requests s ++ ((fun r => (id r, r)) <$> queue s).
Proof.
  intros [_ Hn _ Hk _]. unfold flush. simpl.
  rewrite (fold_write_requests (fun r => r)). by apply fold_set_fresh.
Qed.

Lemma values_moved (m : JsMap.t N Request) (q : list Request) :
  JsMap.values (m ++ ((fun r => (id r, r)) <$> q)) = JsMap.values m ++ q.
Proof.
  unfold JsMap.values. rewrite fmap_app. f_equal.
  rewrite <- list_fmap_compose. by rewrite list_fmap_id.
Qed.

Lemma flush_inv s : correlator_inv s → correlator_inv (flush s).
Proof.
  intros Hinv. pose proof (flush_requests s Hinv) as Hr.
  pose proof (fold_write_frame (fun r => r) (queue s) s) as H.
  simpl in H. destruct H as (Hq & Hi & Hs & _).
  destruct Hinv as [H1 H2 H3 H4 H5].
  assert (queue (flush s) = []) as Hq' by done.
  assert (requestId (flush s) = requestId s) as Hi' by done.
  assert (issued (flush s) = issued s) as Hs' by done.
  split; unfold inflight in *;
    rewrite ?Hr, ?Hq', ?Hi', ?Hs', ?values_moved, ?app_nil_r; try done.
  apply Forall_app. split; [done|].
  apply Forall_fmap. by apply Forall_true.
Qed.

Lemma resubscribe_inv s : correlator_inv s → correlator_inv (resubscribe s).
Proof.
  unfold resubscribe. generalize (observers s) as l. intros l. revert s.
  induction l as [|e l IH]; intros s Hinv; cbn [fold_left]; [done|].
  apply IH. by apply command_inv.
Qed.

Lemma ready_inv s : correlator_inv s → correlator_inv (ready s).
Proof.
  intros. unfold ready. by apply flush_inv, resend_inv, resubscribe_inv.
Qed.

Lemma delete_inv k s :
  correlator_inv s →
  correlator_inv (set_requests (JsMap.delete k (requests s)) s).
Proof.
  intros [H1 H2 H3 H4 H5].
  assert (JsMap.values (JsMap.delete k (requests s)) ++ queue s
          `sublist_of` inflight s) as Hsub.
  { apply sublist_app; [|done]. unfold JsMap.values.
    apply fmap_sublist, delete_sublist. }
  split; unfold inflight; simpl; try done.
  - eapply sublist_NoDup; [exact H2|]. by apply fmap_sublist.
  - rewrite Forall_forall in *. intros r Hr. apply H3.
    by eapply elem_of_sublist.
  - rewrite Forall_forall in *. intros e He. apply H4.
    eapply elem_of_sublist; [exact He|]. apply delete_sublist.
  - rewrite Forall_forall in *. intros r Hr. apply H5.
    by eapply elem_of_sublist.
Qed.

Lemma fold_invoke_correlator (fs : list Fn) v s :
  correlator (fold_left (fun s fn => invoke fn v s) fs s) = correlator s.
Proof.
  revert s. induction fs as [|f fs IH]; intros s; simpl; [done|].
  by rewrite IH.
Qed.

(** A step that writes neither map, queue, counter nor id log keeps the
    invariant. *)
Ltac same_correlator :=
  simpl; first
    [ assumption
    | eapply correlator_inv_frame; [..|eassumption]; reflexivity ].

Lemma handle_inv x s :
  correlator_inv s → correlator_inv (state_of (handle x s)).
Proof.
  intros Hinv. unfold handle.
  destruct (field "event" x) as [ev|e]; [|same_correlator].
  destruct (truthy ev).
  - destruct (is_str "property-change" ev).
    + destruct (observer_of _ s); [|same_correlator]. simpl.
      eapply correlator_inv_same; [apply fold_invoke_correlator | done].
    + destruct (stringifiable ev); same_correlator.
  - destruct (request_of _ s) as [[k request]|].
    + destruct (is_str "success" _); [|destruct (_ && _)]; simpl;
        try (eapply correlator_inv_same; [apply settle_correlator|]);
        by apply delete_inv.
    + destruct (is_str "success" _); [|destruct (stringifiable _)];
        same_correlator.
Qed.

Lemma forEach_handle_inv xs s :
  correlator_inv s → correlator_inv (state_of (forEach_handle xs s)).
Proof.
  revert s. induction xs as [|x xs IH]; intros s Hinv; cbn [forEach_handle];
    [done|].
  pose proof (handle_inv x s Hinv) as Hx.
  destruct (handle x s) as [s'|e s']; [by apply IH | same_correlator].
Qed.

Lemma data_inv parse trim chunk s :
  correlator_inv s → correlator_inv (state_of (data parse trim chunk s)).
Proof.
  intros Hinv. unfold data. destruct (parse_all _ _ _); [|same_correlator].
  by apply forEach_handle_inv.
Qed.

Lemma new_promise_correlator s :
  correlator (new_promise s).2 = correlator s.
Proof. done. Qed.

Lemma observe_inv x fn s :
  correlator_inv s → correlator_inv (observe x fn s).2.
Proof.
  intros Hinv. unfold observe.
  destruct (new_promise s) as [result s1] eqn:Hnp.
  assert (correlator_inv s1) as Hinv1.
  { eapply correlator_inv_same; [|exact Hinv].
    by rewrite <- (new_promise_correlator s), Hnp. }
  destruct (JsMap.has x (observers s1)).
  - destruct (prop_get x (observers_props s1)); [|same_correlator]. simpl.
    eapply correlator_inv_same; [apply react_correlator | done].
  - set (s2 := set_observeId _ s1).
    assert (correlator_inv s2) as Hinv2 by (subst s2; same_correlator).
    pose proof (command_inv (observe_property (observeId s1 + 1) x) s2 Hinv2)
      as Hc.
    destruct (command _ s2) as [p s3]. simpl in Hc.
    destruct (new_promise s3) as [derived s4] eqn:Hnp4.
    assert (correlator_inv s4) as Hinv4.
    { eapply correlator_inv_same; [|exact Hc].
      by rewrite <- (new_promise_correlator s3), Hnp4. }
    simpl. eapply correlator_inv_same; [apply settle_correlator|].
    eapply correlator_inv_same; [|exact Hinv4].
    etrans; [|apply (react_correlator p (ThenObserversSet x (observeId s1 + 1) fn derived))].
    done.
Qed.

Lemma unobserve_inv x fn s :
  correlator_inv s → correlator_inv (state_of (unobserve x fn s)).
Proof.
  intros Hinv. unfold unobserve.
  destruct (JsMap.get x (observers s)) as [o|]; [|same_correlator].
  destruct (fns_delete fn (fns o)); [|same_correlator].
  set (s1 := set_observers _ (set_observers _ s)).
  assert (correlator_inv s1) as Hinv1 by (subst s1; same_correlator).
  pose proof (command_inv [VStr "unobserve_property"; VId (obs_id o)] s1 Hinv1)
    as Hc.
  destruct (command _ s1) as [p s2]. simpl in *.
  eapply correlator_inv_same; [apply react_correlator | done].
Qed.

Lemma start_with_correlator path thrown s :
  match start_with path thrown s with
  | StartReturned s' | StartAwaiting s' | StartThrew _ s' =>
      correlator s' = correlator s
  end.
Proof.
  unfold start_with. destruct (decide (status s = stopped)); [|done].
  set (s1 := match process _ with Some _ => _ | None => _ end).
  assert (correlator s1 = correlator s) as H1.
  { subst s1. simpl. destruct (process s); [|done].
    by rewrite end_correlator. }
  destruct thrown as [err|]; [by rewrite <- H1|].
  destruct (valid_path path); simpl;
    rewrite <- H1; etrans;
    try (apply (add_listener_correlator OnceCloseReject));
    by rewrite add_listener_correlator.
Qed.

Lemma start_enter_correlator path s :
  match start_enter path s with
  | StartReturned s' | StartAwaiting s' | StartThrew _ s' =>
      correlator s' = correlator s
  end.
Proof. apply start_with_correlator. Qed.

Lemma process_closed_correlator path s :
  correlator (process_closed path s) = correlator s.
Proof.
  unfold process_closed. destruct (process s) as [p|]; [|done].
  set (s1 := set_process _ s).
  change (correlator s) with (correlator s1).
  generalize (listeners p) as ls. clearbody s1. intros ls. revert s1.
  induction ls as [|l ls IH]; intros s1; cbn [fold_left]; [done|].
  rewrite IH. destruct l; simpl; try done.
  by destruct (decide (status s1 = starting)).
Qed.

Lemma handler_inv parse trim path op s :
  correlator_inv s → correlator_inv (handler parse trim path op s).
Proof.
  intros Hinv. destruct op; cbn [handler].
  - pose proof (start_enter_correlator path s) as H.
    destruct (start_enter path s); by eapply correlator_inv_same.
  - pose proof (start_with_correlator path (Some e) s) as H.
    destruct (start_with path (Some e) s); by eapply correlator_inv_same.
  - by apply command_inv.
  - by apply observe_inv.
  - by apply unobserve_inv.
  - eapply correlator_inv_same; [apply end_correlator | done].
  - destruct (decide (status s = starting)); [|same_correlator].
    unfold socket_ready, start_connected.
    eapply correlator_inv_same; [apply add_listener_correlator|].
    assert (correlator_inv (ready (set_socket_open true s))) as Hr
      by (apply ready_inv; same_correlator).
    destruct emit_restarted; same_correlator.
  - by apply data_inv.
  - unfold error. destruct (decide (status s = STARTED)); [|done].
    eapply correlator_inv_same; [apply kill_correlator | done].
  - same_correlator.
  - unfold connect_rejected. destruct (decide _); same_correlator.
  - unfold process_errored. destruct (process s) as [p|]; [|done].
    destruct (existsb _ _); [|done].
    destruct (decide _); same_correlator.
  - eapply correlator_inv_same; [apply process_closed_correlator | done].
Qed.

Lemma run_inv parse trim path ops s :
  correlator_inv s → correlator_inv (run parse trim path ops s).
Proof.
  revert s. induction ops as [|op ops IH]; intros s Hinv; cbn [run fold_left];
    [done|].
  apply IH. unfold exec.
  eapply correlator_inv_same; [apply run_microtasks_correlator|].
  by apply handler_inv.
Qed.

Lemma length_ids_upto n : length (ids_upto n) = n.
Proof. unfold ids_upto. by rewrite length_fmap, length_seq. Qed.

Lemma NoDup_ids_upto n : NoDup (ids_upto n).
Proof.
  unfold ids_upto. apply NoDup_fmap_2; [apply _|]. apply NoDup_ListNoDup, seq_NoDup.
Qed.

(** ** Request ids *)

Lemma command_new_request a s :
  correlator_inv s →
  ∃ r, id r = requestId s + 1
       ∧ request_id (message r) = requestId s + 1
       ∧ args r = a
       ∧ inflight (command a s).2 ≡ₚ r :: inflight s.
Proof.
  intros Hinv. unfold command, new_promise. simpl.
  set (r := {| message := _ |}). exists r. split_and!; try done.
  assert (JsMap.get (requestId s + 1) (requests s) = None) as Hfresh
    by (apply fresh_id; [done | lia]).
  destruct (socket_open s); unfold inflight, write; simpl.
  - by rewrite (set_fresh _ _ _ Hfresh), values_snoc.
  - by rewrite queue_snoc.
Qed.

(** C5.  In every run of the session from its initial state, the ids taken
    by the calls of [command] (made by the caller or by [observe],
    [unobserve] and [ready]) are [1, 2, ..., n] in call order: the i-th
    call takes id i, so ids start at 1, increase strictly and are never
    taken twice.  The requests that are neither resolved nor rejected
    (written or queued) carry pairwise different ids, and the next call
    adds to them one request, whose id (also the [request_id] of its
    message) is n + 1. *)
Theorem command_ids_sequential parse trim path ops :
  let s := run parse trim path ops initial in
  issued s = ids_upto (length (issued s))
  ∧ NoDup (issued s)
  ∧ NoDup (id <$> inflight s)
  ∧ ∀ a, ∃ r, id r = N.of_nat (S (length (issued s)))
              ∧ request_id (message r) = id r
              ∧ args r = a
              ∧ inflight (command a s).2 ≡ₚ r :: inflight s.
Proof.
  intros s.
  assert (correlator_inv s) as Hinv by apply run_inv, initial_inv.
  pose proof Hinv as [Hi Hn _ _ _].
  assert (length (issued s) = N.to_nat (requestId s)) as Hlen
    by (by rewrite Hi, length_ids_upto).
  split_and!; [by rewrite Hlen | | done | ].
  - rewrite Hi. apply NoDup_ids_upto.
  - intros a. destruct (command_new_request a s Hinv) as (r & H1 & H2 & H3 & H4).
    exists r. split_and!; try done; [|congruence].
    rewrite H1, Hlen. lia.
Qed.

(** ** Replay on ready *)











(** ** Queued commands *)





Lemma as_id_VId k : as_id (VId k) = Some k.
Proof.
  unfold as_id, VId, inject_Z. simpl.
  rewrite Z.mod_1_r, Z.div_1_r. simpl.
  assert ((0 <=? Z.of_N k)%Z = true) as -> by (apply Z.leb_le; lia).
  by rewrite N2Z.id.
Qed.

Lemma handle_reply k err d r s :
  JsMap.get k (requests s) = Some r →
  handle (reply_frame k err d) s
  = let s' := set_requests (JsMap.delete k (requests s)) s in
    if is_str "success" err
    then Ok (settle (resolve r) (Fulfilled d) s')
    else if forallb stringifiable (args r) && stringifiable err
    then Ok (settle (reject r) (Rejected (CommandFailed (args r) err)) s')
    else Thrown TypeError s'.
Proof.
  intros Hg. unfold handle, reply_frame. cbn [field assoc String.eqb].
  simpl. unfold request_of. rewrite as_id_VId, Hg.
  done.
Qed.

(** *** Once started, always started *)










(** *** What is queued has not been written *)















(** ** Teardown *)

(** C2, as the code has it.  [end] touches the subprocess handle only: the
    pending map, the queue and the promise store are what they were, so of
    the N pending requests none is rejected and all N stay pending. *)
Theorem end_leaves_pending_requests s :
  requests (end_ s) = requests s
  ∧ queue (end_ s) = queue s
  ∧ promises (end_ s) = promises s
  ∧ emitted (end_ s) = emitted s.
Proof.
  unfold end_. destruct (process s) as [p|]; [|done].
  set (s1 := set_process _ s).
  assert (requests (kill s1) = requests s ∧ queue (kill s1) = queue s
          ∧ promises (kill s1) = promises s ∧ emitted (kill s1) = emitted s)
    as Hk.
  { unfold kill. destruct (process s1) as [p1|]; [|done].
    destruct (killed p1); [done|]. by destruct (exited p1). }
  by destruct (process (kill s1)).
Qed.

(** C2, as stated, fails: with a live subprocess and request 1 pending,
    [end] kills the subprocess and request 1 is still in the pending map,
    its promise neither fulfilled nor rejected, also after the microtask
    checkpoint. *)
Lemma end_rejects_nothing :
  status started_one_pending = STARTED
  ∧ (id <$> inflight started_one_pending) = [1]
  ∧ (killed <$> process (end_ started_one_pending)) = Some true
  ∧ (id <$> inflight (run_microtasks (end_ started_one_pending))) = [1]
  ∧ ((fun r =>
        settlement_of (reject r)
          (settled (promises (run_microtasks (end_ started_one_pending)))))
      <$> inflight (run_microtasks (end_ started_one_pending))) = [None].
Proof. by vm_compute. Qed.

(** ** Restart *)

Lemma process_closed_frame path s :
  spawned (process_closed path s) = spawned s
  ∧ emitted (process_closed path s) = emitted s
  ∧ connects (process_closed path s) = connects s.
Proof.
  unfold process_closed. destruct (process s) as [p|]; [|done].
  set (s1 := set_process _ s).
  change (spawned s) with (spawned s1). change (emitted s) with (emitted s1).
  change (connects s) with (connects s1).
  generalize (listeners p) as ls. clearbody s1. intros ls. revert s1.
  induction ls as [|l ls IH]; intros s1; cbn [fold_left]; [done|].
  destruct (IH (run_close_listener path l s1)) as (-> & -> & ->).
  destruct l; simpl; try done.
  by destruct (decide (status s1 = starting)).
Qed.

(** C3, what the code does at the failing input.  The ["close"] listener of
    a started session sets the status to [started] and calls [start],
    whose guard then returns: the listener only rewrites the status.
    Dispatching the subprocess's ["close"] event therefore spawns nothing,
    opens no connection and emits neither [restarted] nor [error]. *)
Theorem close_listener_does_not_restart path s :
  on_close_restart path s = set_status STARTED s
  ∧ spawned (process_closed path s) = spawned s
  ∧ connects (process_closed path s) = connects s
  ∧ emitted (process_closed path s) = emitted s.
Proof.
  split; [done|]. destruct (process_closed_frame path s) as (? & ? & ?).
  done.
Qed.

Example started_session_stays_down :
  let s := process_closed (Some "/tmp/mpvsocket") started in
  status started = STARTED ∧ spawned started = 1%nat
  ∧ status s = STARTED ∧ spawned s = 1%nat ∧ emitted s = []
  ∧ (exited <$> process s) = Some true.
Proof. by vm_compute. Qed.

(** ** Observation registry *)

Lemma observe_unseen x fn s :
  JsMap.has x (observers s) = false → socket_open s = true →
  let s' := (observe x fn s).2 in
  written s' = written s ++ [subscribe_message (requestId s + 1)
                                               (observeId s + 1) x]
  ∧ observers s' = observers s
  ∧ socket_open s' = true
  ∧ requestId s' = requestId s + 1
  ∧ observeId s' = observeId s + 1.
Proof.
  intros Hhas Hopen. unfold observe, new_promise. simpl. rewrite Hhas.
  unfold command, new_promise. simpl. rewrite Hopen. simpl.
  rewrite settle_only_promises, react_only_promises. done.
Qed.

(** C4, what the code does at the failing input.  When [observe] is called
    twice for a key that has no registry entry yet, the second call before
    the first subscribe command is answered, each call takes a new
    subscription id and writes its own [observe_property] command: two
    subscribe commands reach the player. *)
Theorem observe_twice_subscribes_twice x fn1 fn2 s :
  JsMap.has x (observers s) = false → socket_open s = true →
  written (observe x fn2 (observe x fn1 s).2).2
  = written s ++ [subscribe_message (requestId s + 1) (observeId s + 1) x;
                  subscribe_message (requestId s + 2) (observeId s + 2) x].
Proof.
  intros Hhas Hopen.
  destruct (observe_unseen x fn1 s Hhas Hopen) as (Hw & Ho & Hop & Hr & Hi).
  rewrite <- Ho in Hhas.
  destruct (observe_unseen x fn2 _ Hhas Hop) as (Hw' & _).
  rewrite Hw', Hw, Hr, Hi, <- app_assoc. simpl.
  by replace (requestId s + 1 + 1) with (requestId s + 2) by lia;
     replace (observeId s + 1 + 1) with (observeId s + 2) by lia.
Qed.

Lemma observe_twice_subscribes_twice_witness :
  JsMap.has "volume" (observers started) = false
  ∧ socket_open started = true
  ∧ written (observe "volume" 2%nat (observe "volume" 1%nat started).2).2
    = [subscribe_message 1 1 "volume"; subscribe_message 2 2 "volume"].
Proof.
  split; [reflexivity|]. split; [reflexivity|].
  exact (observe_twice_subscribes_twice "volume" 1%nat 2%nat started
           eq_refl eq_refl).
Defined.

(** The rest of the same run: once both commands are answered the entry of
    the key holds the second id and the second callback only, and a
    [property-change] event reaches the second callback alone. *)
Example observe_twice_loses_first_callback :
  let s2 := (observe "volume" 2%nat (observe "volume" 1%nat started).2).2 in
  let ok k := reply_frame k (VStr "success") VUndefined in
  let s3 := run_microtasks (state_of (handle (ok 1) s2)) in
  let s4 := run_microtasks (state_of (handle (ok 2) s3)) in
  let change := VObj [("event", VStr "property-change");
                      ("name", VStr "volume"); ("data", VNum (4 # 5))] in
  observers s3 = [("volume", {| obs_id := 1; fns := [1%nat] |})]
  ∧ observers s4 = [("volume", {| obs_id := 2; fns := [2%nat] |})]
  ∧ invoked (state_of (handle change s4)) = [(2%nat, VNum (4 # 5))].
Proof. by vm_compute. Qed.

(** When the second call comes after the first registration is complete,
    no second command is written, but the awaited value is the reply's
    [data], not the registry entry: the call ends in a [TypeError] and the
    second callback is never added. *)
Example observe_again_after_registration_throws :
  let s1 := (observe "volume" 1%nat started).2 in
  let ok k := reply_frame k (VStr "success") VUndefined in
  let s2 := run_microtasks (state_of (handle (ok 1) s1)) in
  let '(result, s3) := observe "volume" 2%nat s2 in
  let s4 := run_microtasks s3 in
  written s4 = [subscribe_message 1 1 "volume"]
  ∧ settlement_of result (settled (promises s4)) = Some (Rejected TypeError)
  ∧ observers s4 = [("volume", {| obs_id := 1; fns := [1%nat] |})].
Proof. by vm_compute. Qed.

Lemma unobserve_absent x fn s :
  JsMap.get x (observers s) = None → unobserve x fn s = Thrown TypeError s.
Proof. intros Hg. unfold unobserve. by rewrite Hg. Qed.

Lemma set_observers_same s : set_observers (observers s) s = s.
Proof. by destruct s. Qed.

Lemma unobserve_noop x fn o s :
  JsMap.get x (observers s) = Some o →
  fns_delete fn (fns o) = fns o → fns o ≠ [] →
  unobserve x fn s = Ok s.
Proof.
  intros Hg Hd Hne. unfold unobserve. rewrite Hg, Hd.
  destruct (fns o) as [|f fs] eqn:Hf; [done|].
  rewrite set_same; [by rewrite set_observers_same|].
  rewrite Hg. destruct o. simpl in *. by subst.
Qed.

Lemma fns_delete_idemp fn l :
  fns_delete fn (fns_delete fn l) = fns_delete fn l.
Proof.
  unfold fns_delete. induction l as [|g l IH]; simpl; [done|].
  destruct (negb (g =? fn)%nat) eqn:E; simpl; [|done]. by rewrite E, IH.
Qed.

Lemma unobserve_after x fn s :
  let s1 := state_of (unobserve x fn s) in
  JsMap.get x (observers s1) = None
  ∨ ∃ o, JsMap.get x (observers s1) = Some o
         ∧ fns_delete fn (fns o) = fns o ∧ fns o ≠ [].
Proof.
  cbn zeta. unfold unobserve.
  destruct (JsMap.get x (observers s)) as [o|] eqn:Hg; simpl; [|by left].
  destruct (fns_delete fn (fns o)) as [|f fs] eqn:Hd.
  - left. unfold command, new_promise. simpl.
    destruct (socket_open s); simpl; rewrite react_only_promises; simpl;
      by rewrite get_delete_eq.
  - right. eexists. split; [simpl; apply get_set_eq|]. cbn [fns].
    split; [|done]. rewrite <- Hd. apply fns_delete_idemp.
Qed.

(** C9, as the code has it.  Whatever the state, a second call of
    [unobserve] with the same key and callback leaves the state exactly as
    the first call left it.  It completes when the key still has an entry
    (other subscribers remain) and throws a [TypeError] when the key has
    none, in particular when the first call removed the entry. *)
Theorem unobserve_twice x fn s :
  let s1 := state_of (unobserve x fn s) in
  state_of (unobserve x fn s1) = s1
  ∧ unobserve x fn s1
    = if JsMap.has x (observers s1) then Ok s1 else Thrown TypeError s1.
Proof.
  intros s1. unfold JsMap.has.
  destruct (unobserve_after x fn s) as [Hg | (o & Hg & Hd & Hne)];
    fold s1 in Hg; rewrite Hg.
  - by rewrite unobserve_absent.
  - by rewrite (unobserve_noop x fn o).
Qed.

(** C9, as stated, fails: after a completed registration of one callback,
    the first call of the unsubscribe function removes the entry and sends
    [unobserve_property]; the second call throws a [TypeError]. *)
Lemma unobserve_second_call_throws :
  let s1 := state_of (unobserve "volume" 1%nat observing) in
  observers observing = [("volume", {| obs_id := 1; fns := [1%nat] |})]
  ∧ unobserve "volume" 1%nat observing = Ok s1
  ∧ observers s1 = []
  ∧ unobserve "volume" 1%nat s1 = Thrown TypeError s1.
Proof. by vm_compute. Qed.

(** ** Inbound chunks *)

Section InboundFacts.
Variable JSON_parse : string -> option Value.
Variable trim : string -> string.

Lemma parse_all_fails segments :
  Exists (fun l => JSON_parse (trim l) = None) segments →
  parse_all JSON_parse trim segments = Throw SyntaxError.
Proof.
  induction 1 as [l rest Hl | l rest _ IH]; simpl.
  - by rewrite Hl.
  - destruct (JSON_parse (trim l)); [|done]. by rewrite IH.
Qed.

Lemma parse_all_succeeds segments xs :
  Forall2 (fun l x => JSON_parse (trim l) = Some x) segments xs →
  parse_all JSON_parse trim segments = Normal xs.
Proof.
  induction 1 as [|l x rest xs Hl _ IH]; simpl; [done|].
  by rewrite Hl, IH.
Qed.

(** C7, as the code has it.  All non-empty segments of a chunk are parsed
    before any is dispatched.  If one of them is not JSON, [data] throws
    the [SyntaxError] with the state untouched: no segment of the chunk is
    dispatched, neither those before nor those after the malformed one.
    If all are JSON, the parsed frames are handled one after the other, in
    order. *)
Theorem data_parses_all_before_dispatch chunk s :
  let segments := List.filter nonempty (split_lines [] chunk) in
  (Exists (fun l => JSON_parse (trim l) = None) segments →
   data JSON_parse trim chunk s = Thrown SyntaxError s)
  ∧ (∀ xs, Forall2 (fun l x => JSON_parse (trim l) = Some x) segments xs →
           data JSON_parse trim chunk s = forEach_handle xs s).
Proof.
  intros segments. unfold data. fold segments. split.
  - intros H. by rewrite parse_all_fails.
  - intros xs H. by rewrite (parse_all_succeeds _ xs).
Qed.
End InboundFacts.

Lemma data_parses_all_before_dispatch_witness :
  Exists (fun l => parse_sample (trim_sample l) = None)
         (List.filter nonempty (split_lines [] ("{}" +:+ line_break +:+ "{")))
  ∧ data parse_sample trim_sample ("{}" +:+ line_break +:+ "{") started
    = Thrown SyntaxError started
  ∧ Forall2 (fun l x => parse_sample (trim_sample l) = Some x)
      (List.filter nonempty (split_lines [] ("{}" +:+ line_break +:+ "{}")))
      [VObj []; VObj []]
  ∧ data parse_sample trim_sample ("{}" +:+ line_break +:+ "{}") started
    = forEach_handle [VObj []; VObj []] started.
Proof.
  split; [apply Exists_cons_tl, Exists_cons_hd; reflexivity|].
  split.
  - apply (data_parses_all_before_dispatch parse_sample trim_sample
             ("{}" +:+ line_break +:+ "{") started).
    apply Exists_cons_tl, Exists_cons_hd. reflexivity.
  - split; [repeat constructor|].
    apply (data_parses_all_before_dispatch parse_sample trim_sample
             ("{}" +:+ line_break +:+ "{}") started).
    repeat constructor.
Defined.

(** C7, as stated, fails: take the chunk made of the line [{], which is
    not JSON, followed by the line [{"event":"pause"}].  Alone, the second
    line is dispatched and the session emits ["pause"].  In the chunk it is
    not: [data] throws on the first line and nothing is emitted. *)
Lemma data_malformed_line_stops_chunk :
  split_lines [] ("{" +:+ line_break +:+ pause_text) = ["{"; pause_text]
  ∧ data parse_sample trim_sample pause_text started
    = Ok (emit (EmitEvent (VStr "pause") pause_frame) started)
  ∧ data parse_sample trim_sample ("{" +:+ line_break +:+ pause_text) started
    = Thrown SyntaxError started.
Proof. by vm_compute. Qed.

(** ** Connecting *)

Module ConnectFacts.
Import Connect.
Local Open Scope Z_scope.

Lemma step_opts c ev : opts (step c ev) = opts c.
Proof.
  destruct ev; simpl; try (destruct (promise c); [done|]); simpl; try done.
  - unfold close. by destruct (_ >? _).
  - by destruct (timers c).
Qed.

Lemma run_opts evs c : opts (run evs c) = opts c.
Proof.
  revert c. induction evs as [|ev evs IH]; intros c; simpl; [done|].
  unfold run in IH. by rewrite IH, step_opts.
Qed.

Lemma step_settled c ev o : promise c = Some o → promise (step c ev) = Some o.
Proof.
  intros Hp. destruct ev; simpl; rewrite ?Hp; try done.
  by destruct (timers c).
Qed.

Lemma run_settled evs c o : promise c = Some o → promise (run evs c) = Some o.
Proof.
  revert c. induction evs as [|ev evs IH]; intros c Hp; simpl; [done|].
  apply IH. by apply step_settled.
Qed.

Lemma run_pending_inv ev evs c :
  promise (run (ev :: evs) c) = None → promise (step c ev) = None.
Proof.
  simpl. intros Hp. destruct (promise (step c ev)) as [o|] eqn:Ho; [|done].
  fold (run evs (step c ev)) in Hp.
  by rewrite (run_settled evs _ o Ho) in Hp.
Qed.

Lemma step_pending_error c ev :
  promise (step c ev) = None →
  error (step c ev) = last_error [ev] (error c).
Proof.
  destruct ev; simpl.
  - destruct (promise c); simpl; done.
  - destruct (promise c) eqn:Hp; simpl; [congruence | done].
  - destruct (promise c); [done|]. unfold close.
    destruct (_ >? _); simpl; done.
  - by destruct (timers c).
Qed.

(** While the promise is pending, [error] holds the last error seen. *)
Lemma run_pending_error evs c :
  promise (run evs c) = None →
  error (run evs c) = last_error evs (error c).
Proof.
  revert c. induction evs as [|ev evs IH]; intros c Hp; [done|].
  pose proof (run_pending_inv _ _ _ Hp) as Hs.
  change (run (ev :: evs) c) with (run evs (step c ev)) in *.
  rewrite IH by done. rewrite (step_pending_error _ _ Hs).
  by destruct ev.
Qed.

Lemma step_rejects c ev e :
  promise c = None → promise (step c ev) = Some (Rejected e) →
  ∃ t, ev = Close t ∧ elapsed c t > timeout (opts c)
       ∧ e = default (ErrorMsg "Timed out") (error c).
Proof.
  intros Hp. destruct ev as [|e0|hrtime|]; simpl; rewrite ?Hp; simpl.
  - done.
  - by rewrite Hp.
  - unfold close. destruct (_ >? _) eqn:E; simpl; [|congruence].
    intros [= <-]. exists hrtime. split_and!; try done. lia.
  - destruct (timers c); simpl; congruence.
Qed.

Lemma run_rejected evs c e :
  promise c = None → promise (run evs c) = Some (Rejected e) →
  ∃ evs1 t evs2,
    evs = evs1 ++ Close t :: evs2
    ∧ promise (run evs1 c) = None
    ∧ elapsed c t > timeout (opts c)
    ∧ e = default (ErrorMsg "Timed out") (last_error evs1 (error c)).
Proof.
  revert c. induction evs as [|ev evs IH]; intros c Hp Hr.
  - simpl in Hr. congruence.
  - change (run (ev :: evs) c) with (run evs (step c ev)) in Hr.
    destruct (promise (step c ev)) as [o|] eqn:Hs.
    + rewrite (run_settled evs _ o Hs) in Hr. injection Hr as ->.
      destruct (step_rejects c ev e Hp Hs) as (t & -> & Ht & He).
      by exists [], t, evs.
    + destruct (IH _ Hs Hr) as (evs1 & t & evs2 & -> & Hp1 & Ht & He).
      exists (ev :: evs1), t, evs2. split_and!; try done.
      * unfold elapsed in *. by rewrite step_opts in Ht.
      * rewrite He. simpl.
        rewrite (step_pending_error _ _ Hs). by destruct ev.
Qed.
End ConnectFacts.

(** C8.  For a usable socket path, [connect()] (no argument, as [start]
    calls it) starts with the timeout 5000 ms and the start time read from
    the clock.  After any events, while the promise is pending: a ["close"]
    event at which no more than 5000 ms have elapsed since the start does
    not settle the promise and sets a timer of 20 ms, whose callback calls
    [socket.connect] again; a ["close"] event at which more than 5000 ms
    have elapsed rejects the promise with the last error seen, or with
    [Error("Timed out")] when none was seen.  The promise is never
    rejected in another way. *)
Theorem connect_retries_until_timeout path hrtime0 evs :
  valid_path path = true →
  ∃ c0,
    Connect.connect path (Connect.defaults hrtime0) = Normal c0
    ∧ Connect.timeout (Connect.opts c0) = 5000%Z
    ∧ Connect.connectStart (Connect.opts c0) = (hrtime0 ÷ 1000000)%Z
    ∧ (let c := Connect.run evs c0 in
       Connect.promise c = None →
       ∀ t,
         let c' := Connect.step c (Connect.Close t) in
         ((t ÷ 1000000 - hrtime0 ÷ 1000000 ≤ 5000)%Z →
          Connect.promise c' = None
          ∧ Connect.timers c' = Connect.timers c ++ [20%Z]
          ∧ Connect.attempts (Connect.step c' Connect.TimerFired)
            = S (Connect.attempts c))
         ∧ ((t ÷ 1000000 - hrtime0 ÷ 1000000 > 5000)%Z →
            Connect.promise c'
            = Some (Rejected (default (ErrorMsg "Timed out")
                                      (Connect.last_error evs None)))))
    ∧ (∀ e, Connect.promise (Connect.run evs c0) = Some (Rejected e) →
         ∃ evs1 t evs2,
           evs = evs1 ++ Connect.Close t :: evs2
           ∧ Connect.promise (Connect.run evs1 c0) = None
           ∧ (t ÷ 1000000 - hrtime0 ÷ 1000000 > 5000)%Z
           ∧ e = default (ErrorMsg "Timed out")
                         (Connect.last_error evs1 None)).
Proof.
  intros Hpath. unfold Connect.connect. rewrite Hpath.
  eexists. split; [done|]. split; [done|]. split; [done|].
  set (c0 := {| Connect.opts := _ |}). split.
  - intros Hp t. set (c := Connect.run evs c0) in *.
    assert (Connect.elapsed c t = (t ÷ 1000000 - hrtime0 ÷ 1000000)%Z) as He.
    { unfold Connect.elapsed. subst c. by rewrite ConnectFacts.run_opts. }
    assert (Connect.timeout (Connect.opts c) = 5000%Z) as Ht
      by (subst c; by rewrite ConnectFacts.run_opts).
    simpl. rewrite Hp. unfold Connect.close. rewrite He, Ht.
    split; intros Hle.
    + assert ((t ÷ 1000000 - hrtime0 ÷ 1000000 >? 5000)%Z = false) as ->
        by lia.
      simpl. split; [done|]. split; [done|].
      destruct (Connect.timers c); done.
    + assert ((t ÷ 1000000 - hrtime0 ÷ 1000000 >? 5000)%Z = true) as ->
        by lia.
      simpl. subst c. by rewrite (ConnectFacts.run_pending_error evs c0 Hp).
  - intros e Hr.
    destruct (ConnectFacts.run_rejected evs c0 e eq_refl Hr)
      as (evs1 & t & evs2 & Hev & Hp1 & Ht & He).
    by exists evs1, t, evs2.
Qed.

Lemma connect_retries_until_timeout_witness :
  let refused := Connect.Errored (ConnectionError "ENOENT") in
  valid_path (Some "/tmp/mpvsocket") = true
  ∧ ∃ c0,
      Connect.connect (Some "/tmp/mpvsocket") (Connect.defaults 0)
      = Normal c0
      ∧ Connect.timeout (Connect.opts c0) = 5000%Z
      ∧ Connect.promise (Connect.run [refused] c0) = None
      ∧ Connect.timers
          (Connect.step (Connect.run [refused] c0) (Connect.Close 3000000))
        = [20%Z]
      ∧ Connect.promise
          (Connect.step (Connect.run [refused] c0)
                        (Connect.Close 6000000000))
        = Some (Rejected (ConnectionError "ENOENT"))
      ∧ ∃ evs1 t evs2,
          [refused; Connect.Close 6000000000]
          = evs1 ++ Connect.Close t :: evs2
          ∧ (t ÷ 1000000 - 0 ÷ 1000000 > 5000)%Z.
Proof.
  intros refused. split; [reflexivity|].
  destruct (connect_retries_until_timeout (Some "/tmp/mpvsocket") 0
              [refused] eq_refl) as (c0 & H1 & H2 & _ & H3 & _).
  destruct (connect_retries_until_timeout (Some "/tmp/mpvsocket") 0
              [refused; Connect.Close 6000000000] eq_refl)
    as (c1 & G1 & _ & _ & _ & G4).
  exists c0. split; [assumption|]. split; [assumption|].
  injection H1 as <-. injection G1 as <-.
  specialize (H3 eq_refl).
  split; [reflexivity|].
  split; [exact (proj1 (proj2 (proj1 (H3 3000000%Z) ltac:(vm_compute; discriminate))))|].
  split; [exact (proj2 (H3 6000000000%Z) eq_refl)|].
  destruct (G4 (ConnectionError "ENOENT") eq_refl)
    as (evs1 & t & evs2 & Hev & _ & Ht & _).
  exists evs1, t, evs2. split; assumption.
Defined.

(** A socket that is refused twice, the second time after six seconds. *)
Example connect_times_out :
  let c0 := {| Connect.opts := Connect.defaults 0; Connect.error := None;
               Connect.promise := None; Connect.attempts := 1;
               Connect.timers := [] |} in
  let refused := Connect.Errored (ConnectionError "ENOENT") in
  Connect.promise (Connect.run [refused; Connect.Close 3000000] c0) = None
  ∧ Connect.attempts
      (Connect.run [refused; Connect.Close 3000000; Connect.TimerFired] c0)
    = 2%nat
  ∧ Connect.promise
      (Connect.run [refused; Connect.Close 3000000; Connect.TimerFired;
                    refused; Connect.Close 6000000000] c0)
    = Some (Rejected (ConnectionError "ENOENT"))
  ∧ Connect.promise (Connect.run [Connect.Close 6000000000] c0)
    = Some (Rejected (ErrorMsg "Timed out")).
Proof. by vm_compute. Qed.

(** ** The caller's argument array *)

Lemma add_default_extends a l : ∃ added, Args.add_default a l = l ++ added.
Proof.
  unfold Args.add_default. destruct (existsb _ l).
  - exists []. by rewrite app_nil_r.
  - by exists [a].
Qed.

Lemma fold_defaults (copy : Args.Ref) ds (h : Args.Heap) l :
  h !! copy = Some l →
  let h' := fold_left
              (fun h a =>
                 <[copy := Args.add_default a (default [] (h !! copy))]> h)
              ds h in
  (∃ added, h' !! copy = Some (l ++ added))
  ∧ ∀ r, r ≠ copy → h' !! r = h !! r.
Proof.
  revert h l. induction ds as [|a ds IH]; intros h l Hl; cbn [fold_left].
  - split; [|done]. exists []. by rewrite app_nil_r.
  - destruct (add_default_extends a l) as [added1 Ha].
    destruct (IH (<[copy := Args.add_default a (default [] (h !! copy))]> h)
                 (l ++ added1)) as ((added2 & H2) & Hf).
    { rewrite lookup_insert_eq, Hl. simpl. by rewrite Ha. }
    split.
    + exists (added1 ++ added2). by rewrite app_assoc.
    + intros r Hr. rewrite Hf by done. by rewrite lookup_insert_ne.
Qed.

(** C10.  [Mpv] copies the array it is given before adding the defaults:
    the array the caller passed holds, after the call, exactly the
    elements it held before, in the same order; the list that goes to
    [spawn] is another array, which starts with the caller's elements. *)
Theorem Mpv_args_leaves_caller_array (h : Args.Heap) (r : Args.Ref)
    (xs : list string) (win32 : bool) (suffix : string) :
  h !! r = Some xs →
  let copy := (Args.Mpv_args (Some r) win32 suffix h).1 in
  let h' := (Args.Mpv_args (Some r) win32 suffix h).2 in
  h' !! r = Some xs
  ∧ copy ≠ r
  ∧ ∃ added, h' !! copy = Some (xs ++ added).
Proof.
  intros Hr. unfold Args.Mpv_args, Args.alloc. rewrite Hr. cbn [default fst snd].
  set (copy := fresh (dom h)).
  assert (copy ≠ r) as Hne.
  { intros Heq. apply (is_fresh (dom h)). fold copy. rewrite Heq.
    apply elem_of_dom. by exists xs. }
  destruct (fold_defaults copy (Args.defaults win32 suffix)
              (<[copy := xs]> h) xs) as (Hadded & Hframe).
  { apply lookup_insert_eq. }
  split_and!; [|done|done].
  rewrite Hframe by done. by rewrite lookup_insert_ne.
Qed.

Lemma Mpv_args_leaves_caller_array_witness :
  ({[ 0%nat := ["--no-video"; "--idle=once"] ]} : Args.Heap) !! 0%nat
  = Some ["--no-video"; "--idle=once"]
  ∧ (Args.Mpv_args (Some 0%nat) false "k3x9"
       {[ 0%nat := ["--no-video"; "--idle=once"] ]}).2 !! 0%nat
    = Some ["--no-video"; "--idle=once"].
Proof.
  split; [reflexivity|].
  exact (proj1 (Mpv_args_leaves_caller_array
                  {[ 0%nat := ["--no-video"; "--idle=once"] ]} 0%nat
                  ["--no-video"; "--idle=once"] false "k3x9" eq_refl)).
Defined.

Example Mpv_args_merges_defaults :
  let '(copy, h') := Args.Mpv_args (Some 0%nat) false "k3x9"
                       {[ 0%nat := ["--no-video"; "--idle=once"] ]} in
  h' !! copy
  = Some ["--no-video"; "--idle=once";
          "--input-ipc-server=/tmp/mpvsocketk3x9";
          "--audio-fallback-to-null=yes"; "--no-config";
          "--msg-level=all=warn"]
  ∧ Args.socketPath (default [] (h' !! copy)) = Some "/tmp/mpvsocketk3x9".
Proof. by vm_compute. Qed.

(** ** A session from start to event *)

Example session_run :
  let s := run parse_sample trim_sample (Some "/tmp/mpvsocket")
             [Start; SocketReady false; Command get_volume;
              Observe "volume" 1%nat; Command set_volume;
              SocketData (pause_text +:+ line_break)]
             initial in
  status s = STARTED
  ∧ issued s = [1; 2; 3]
  ∧ (request_id <$> written s) = [1; 2; 3]
  ∧ emitted s = [EmitEvent (VStr "pause") pause_frame]
  ∧ jobs (promises s) = [].
Proof. by vm_compute. Qed.

(** * Further properties *)

(** ** Life cycle *)









(** X2.  [end] is idempotent, and it detaches the restart listener: when
    the subprocess closes after [end], the status of the session stays
    what it was. *)
Theorem end_idempotent_and_detaches path s :
  end_ (end_ s) = end_ s
  ∧ status (process_closed path (end_ s)) = status s.
Proof.
  destruct s as [st pr sp so wr co ob op rq oi ri qu em iv iss ps].
  destruct pr as [[n k e ls u]|]; [destruct k, e|]; split; reflexivity.
Qed.

(** X3.  The two ways [start] fails before it connects, from status
    [stopped].  When [cp.spawn] returns a handle and the socket path is
    missing or empty, [start] fails with the assertion error and the
    status [errored] after the subprocess has been spawned: the new
    subprocess is left running, not killed, with the two one-shot
    listeners and without the restart listener.  When [cp.spawn] throws,
    [start] fails with what was thrown and the status [errored]:
    [mpv.process] is what [end] left, no listener is attached.  In both
    cases [socket.connect] is not called. *)
Theorem start_with_unusable_path path s :
  status s = stopped →
  (valid_path path = false →
   ∃ s' p,
     start_enter path s = StartThrew (AssertionError "Invalid socket path.") s'
     ∧ status s' = ERRORED
     ∧ spawned s' = S (spawned s)
     ∧ process s' = Some p
     ∧ pid p = S (spawned s) ∧ killed p = false
     ∧ listeners p = [OnceErrorReject; OnceCloseReject]
     ∧ connects s' = connects s)
  ∧ (∀ e, ∃ s',
       start_with path (Some e) s = StartThrew e s'
       ∧ status s' = ERRORED
       ∧ spawned s' = S (spawned s)
       ∧ process s' = process (end_ s)
       ∧ connects s' = connects s).
Proof.
  intros Hs.
  assert (∀ t : State,
            connects (match process t with Some _ => end_ t | None => t end)
            = connects t
            ∧ spawned (match process t with Some _ => end_ t | None => t end)
              = spawned t
            ∧ process (match process t with Some _ => end_ t | None => t end)
              = process (end_ t)) as Hend.
  { intros t. destruct (process t) eqn:Hp.
    - by rewrite end_only_process.
    - unfold end_. by rewrite Hp. }
  destruct (Hend (set_status starting s)) as (Hc & Hn & Hp).
  simpl in Hc, Hn, Hp.
  assert (process (end_ (set_status starting s)) = process (end_ s)) as Hpe.
  { destruct s as [st pr sp so wr co ob op rq oi ri qu em iv iss ps].
    destruct pr as [[n k e ls u]|]; [destruct k, e|]; reflexivity. }
  split.
  - intros Hv. unfold start_enter, start_with.
    rewrite decide_True by done. rewrite Hv. cbv zeta.
    unfold add_listener, spawn. simpl. eexists _, _.
    split; [reflexivity|]. simpl. rewrite Hn, Hc. done.
  - intros e. unfold start_with. rewrite decide_True by done. cbv zeta.
    eexists. split; [reflexivity|]. simpl.
    rewrite Hn, Hc, Hp, Hpe. done.
Qed.

Lemma start_with_unusable_path_witness :
  status initial = stopped ∧ valid_path (Some EmptyString) = false
  ∧ (∃ s', start_enter (Some EmptyString) initial
           = StartThrew (AssertionError "Invalid socket path.") s'
           ∧ (pid <$> process s') = Some 1%nat)
  ∧ ∃ s', start_with sample_path (Some TypeError) initial
          = StartThrew TypeError s'
          ∧ process s' = None ∧ spawned s' = 1%nat.
Proof.
  split; [reflexivity|]. split; [reflexivity|].
  pose proof (start_with_unusable_path (Some EmptyString) initial eq_refl)
    as [Ha _].
  pose proof (start_with_unusable_path sample_path initial eq_refl)
    as [_ Hb].
  split.
  - destruct (Ha eq_refl) as (s' & p & H1 & _ & _ & H2 & H3 & _).
    exists s'. split; [exact H1|]. rewrite H2. simpl. by rewrite H3.
  - destruct (Hb TypeError) as (s' & H1 & _ & H2 & H3 & _).
    exists s'. split; [exact H1|]. split; assumption.
Defined.

(** X4.  If the subprocess closes while [start] is waiting for the
    connection, the session ends in status [errored] without another
    spawn, and a socket that becomes ready afterwards only opens: [ready]
    is not run, so nothing is flushed. *)
Theorem close_while_starting parse trim path s s1 b :
  start_enter path s = StartAwaiting s1 →
  let s2 := process_closed path s1 in
  status s1 = starting
  ∧ status s2 = ERRORED
  ∧ spawned s2 = spawned s1
  ∧ handler parse trim path (SocketReady b) s2 = set_socket_open true s2.
Proof.
  intros Hstart s2.
  assert (status s1 = starting ∧ status s2 = ERRORED
          ∧ spawned s2 = spawned s1) as (H1 & H2 & H3).
  { subst s2. revert Hstart.
    destruct s as [st pr sp so wr co ob op rq oi ri qu em iv iss ps].
    unfold start_enter, start_with. destruct (decide _) as [Hs|]; [|done].
    destruct (valid_path path); [|done].
    destruct pr as [[n k e ls u]|]; [destruct k, e|]; intros [= <-];
      split_and!; reflexivity. }
  split_and!; [done..|].
  cbn [handler]. rewrite decide_False; [done | by rewrite H2].
Qed.

Lemma close_while_starting_witness :
  ∃ s1, start_enter (Some "/tmp/mpvsocket") initial = StartAwaiting s1
        ∧ status (process_closed (Some "/tmp/mpvsocket") s1) = ERRORED.
Proof.
  eexists. split; [reflexivity|].
  exact (proj1 (proj2 (close_while_starting (fun _ => None) (fun x => x)
                         (Some "/tmp/mpvsocket") initial _ false eq_refl))).
Defined.

(** ** The argument list *)

Lemma fold_defaults_lookup (copy : nat) ds (h : gmap nat (list string)) l :
  h !! copy = Some l →
  fold_left
    (fun h a => <[copy := Args.add_default a (default [] (h !! copy))]> h)
    ds h !! copy
  = Some (fold_left (fun l a => Args.add_default a l) ds l).
Proof.
  revert h l. induction ds as [|a ds IH]; intros h l Hl; cbn [fold_left];
    [done|].
  apply IH. by rewrite lookup_insert_eq, Hl.
Qed.

Lemma merge_independent ds xs added :
  independent ds = true →
  forallb (fun a => negb (supplied_key a added)) ds = true →
  fold_left (fun l a => Args.add_default a l) ds (xs ++ added)
  = xs ++ added ++ List.filter (fun a => negb (supplied_key a xs)) ds.
Proof.
  revert added. induction ds as [|a ds IH]; intros added Hi Hf;
    cbn [fold_left List.filter].
  - by rewrite app_nil_r.
  - cbn [independent forallb] in Hi, Hf.
    apply andb_prop in Hi as [Ha Hi]. apply andb_prop in Hf as [Hfa Hf].
    apply negb_true_iff in Hfa.
    assert (Args.add_default a (xs ++ added)
            = if supplied_key a xs then xs ++ added
              else xs ++ (added ++ [a])) as ->.
    { unfold Args.add_default. fold (supplied_key a (xs ++ added)).
      unfold supplied_key at 1. rewrite existsb_app.
      fold (supplied_key a xs). fold (supplied_key a added).
      rewrite Hfa, orb_false_r.
      destruct (supplied_key a xs); [done | by rewrite app_assoc]. }
    destruct (supplied_key a xs) eqn:Hs; cbn [negb].
    + by apply IH.
    + rewrite (IH (added ++ [a])); [by rewrite <- app_assoc|done|].
      rewrite forallb_forall in *. intros b Hb.
      unfold supplied_key. rewrite existsb_app, negb_orb.
      apply andb_true_intro. split; [by apply Hf|].
      cbn [existsb]. rewrite orb_false_r. by apply Ha.
Qed.

Lemma defaults_independent win32 suffix :
  independent (Args.defaults win32 suffix) = true.
Proof. destruct win32; reflexivity. Qed.

(** X5.  The list handed to [spawn] is the caller's list followed by
    exactly those defaults whose key (the text before the first [=]) no
    caller argument starts with, in the order of the defaults. *)
Theorem Mpv_args_adds_missing_defaults (h : gmap nat (list string)) (r : nat)
    (xs : list string) (win32 : bool) (suffix : string) :
  h !! r = Some xs →
  let copy := (Args.Mpv_args (Some r) win32 suffix h).1 in
  let h' := (Args.Mpv_args (Some r) win32 suffix h).2 in
  h' !! copy
  = Some (xs ++ List.filter (fun a => negb (supplied_key a xs))
                            (Args.defaults win32 suffix)).
Proof.
  intros Hr. unfold Args.Mpv_args, Args.alloc. rewrite Hr.
  cbn [default fst snd].
  rewrite (fold_defaults_lookup _ _ _ xs) by apply lookup_insert_eq.
  f_equal.
  pose proof (merge_independent (Args.defaults win32 suffix) xs []
                (defaults_independent win32 suffix)) as H.
  rewrite app_nil_r in H. apply H. reflexivity.
Qed.

Lemma Mpv_args_adds_missing_defaults_witness :
  ({[ 0%nat := ["--idle-timeout"; "--no-video"] ]} : gmap nat (list string))
    !! 0%nat = Some ["--idle-timeout"; "--no-video"]
  ∧ (Args.Mpv_args (Some 0%nat) false "k3x9"
       {[ 0%nat := ["--idle-timeout"; "--no-video"] ]}).2
    !! (Args.Mpv_args (Some 0%nat) false "k3x9"
          {[ 0%nat := ["--idle-timeout"; "--no-video"] ]}).1
    = Some ["--idle-timeout"; "--no-video";
            "--input-ipc-server=/tmp/mpvsocketk3x9";
            "--audio-fallback-to-null=yes"; "--no-config";
            "--msg-level=all=warn"].
Proof.
  split; [reflexivity|].
  exact (Mpv_args_adds_missing_defaults
           {[ 0%nat := ["--idle-timeout"; "--no-video"] ]} 0%nat
           ["--idle-timeout"; "--no-video"] false "k3x9" eq_refl).
Defined.

Lemma find_app_list {A} (f : A → bool) (l k : list A) :
  List.find f (l ++ k)
  = match List.find f l with Some x => Some x | None => List.find f k end.
Proof. induction l as [|a l IH]; simpl; [done|]. by destruct (f a). Qed.

Lemma find_none_existsb {A} (f : A → bool) (l : list A) :
  existsb f l = false → List.find f l = None.
Proof.
  induction l as [|a l IH]; simpl; [done|].
  destruct (f a); [done|]. apply IH.
Qed.

Lemma string_length_app s1 s2 :
  String.length (s1 +:+ s2) = (String.length s1 + String.length s2)%nat.
Proof. induction s1 as [|c s1 IH]; simpl; [done | by rewrite IH]. Qed.

Lemma substring_all m s :
  (String.length s ≤ m)%nat → String.substring 0 m s = s.
Proof.
  revert m. induction s as [|c s IH]; intros m Hm; destruct m; simpl in *;
    try done; try lia.
  f_equal. apply IH. lia.
Qed.

Lemma Mpv_args_lookup (h : gmap nat (list string)) (r : nat)
    (xs : list string) (win32 : bool) (suffix : string) :
  h !! r = Some xs →
  (Args.Mpv_args (Some r) win32 suffix h).2
    !! (Args.Mpv_args (Some r) win32 suffix h).1
  = Some (xs ++ List.filter (fun a => negb (supplied_key a xs))
                            (Args.defaults win32 suffix)).
Proof.
  intros Hr. unfold Args.Mpv_args, Args.alloc. rewrite Hr.
  cbn [default fst snd].
  rewrite (fold_defaults_lookup _ _ _ xs) by apply lookup_insert_eq.
  f_equal.
  pose proof (merge_independent (Args.defaults win32 suffix) xs []
                (defaults_independent win32 suffix)) as H.
  rewrite app_nil_r in H. apply H. reflexivity.
Qed.

(** X6.  The socket path the session connects to is read off the merged
    list.  When no caller argument starts with [--input-ipc-server], it is
    the generated endpoint, which is never empty.  Otherwise it is what
    follows the 19th character of the first caller argument that starts
    with [--input-ipc-server]: the caller's endpoint wins over the
    generated one, and an argument without a value gives the empty path. *)
Theorem socket_path_of_merged_args (h : gmap nat (list string)) (r : nat)
    (xs : list string) (win32 : bool) (suffix : string) :
  h !! r = Some xs →
  let args' :=
    default [] ((Args.Mpv_args (Some r) win32 suffix h).2
                  !! (Args.Mpv_args (Some r) win32 suffix h).1) in
  (existsb (String.prefix Args.socketArg) xs = false →
   Args.socketPath args' = Some (endpoint_base win32 +:+ suffix)
   ∧ valid_path (Args.socketPath args') = true)
  ∧ (∀ pre x post,
       xs = pre ++ x :: post →
       existsb (String.prefix Args.socketArg) pre = false →
       String.prefix Args.socketArg x = true →
       Args.socketPath args'
       = Some (String.substring 19 (String.length x) x)).
Proof.
  intros Hr args'. subst args'. rewrite (Mpv_args_lookup h r xs) by done.
  cbn [from_option]. unfold Datatypes.id, Args.socketPath. split.
  - intros Hno. rewrite find_app_list, (find_none_existsb (fun x => String.prefix Args.socketArg x) xs Hno).
    assert (supplied_key (Args.randomPath win32 suffix) xs = false) as Hs
      by exact Hno.
    unfold Args.defaults. cbn [List.filter]. rewrite Hs. cbn [negb List.find].
    assert (String.prefix Args.socketArg (Args.randomPath win32 suffix) = true)
      as -> by reflexivity.
    assert (String.substring (String.length Args.socketArg + 1)
              (String.length (Args.randomPath win32 suffix))
              (Args.randomPath win32 suffix)
            = endpoint_base win32 +:+ suffix) as ->.
    { change (String.substring 0
                (String.length (Args.randomPath win32 suffix))
                (endpoint_base win32 +:+ suffix)
              = endpoint_base win32 +:+ suffix).
      apply substring_all. unfold Args.randomPath, endpoint_base.
      rewrite !string_length_app. lia. }
    split; [done|]. by destruct win32.
  - intros pre x post -> Hpre Hx.
    rewrite <- app_assoc, find_app_list, (find_none_existsb (fun x => String.prefix Args.socketArg x) pre Hpre).
    cbn [app List.find]. by rewrite Hx.
Qed.

Lemma socket_path_of_merged_args_witness :
  let h : gmap nat (list string) :=
    {[ 0%nat := ["--no-video"];
       1%nat := ["--no-video"; "--input-ipc-server=/run/mpv"];
       2%nat := ["--input-ipc-server"] ]} in
  let merged r :=
    default [] ((Args.Mpv_args (Some r) false "k3x9" h).2
                  !! (Args.Mpv_args (Some r) false "k3x9" h).1) in
  h !! 0%nat = Some ["--no-video"]
  ∧ Args.socketPath (merged 0%nat) = Some "/tmp/mpvsocketk3x9"
  ∧ Args.socketPath (merged 1%nat) = Some "/run/mpv"
  ∧ Args.socketPath (merged 2%nat) = Some EmptyString
  ∧ valid_path (Args.socketPath (merged 2%nat)) = false.
Proof.
  intros h merged. split; [reflexivity|].
  split.
  - exact (proj1 (proj1 (socket_path_of_merged_args h 0%nat ["--no-video"]
                           false "k3x9" eq_refl) eq_refl)).
  - split.
    + exact (proj2 (socket_path_of_merged_args h 1%nat
                      ["--no-video"; "--input-ipc-server=/run/mpv"]
                      false "k3x9" eq_refl)
                   ["--no-video"] "--input-ipc-server=/run/mpv" []
                   eq_refl eq_refl eq_refl).
    + split; [|reflexivity].
      exact (proj2 (socket_path_of_merged_args h 2%nat
                      ["--input-ipc-server"] false "k3x9" eq_refl)
                   [] "--input-ipc-server" [] eq_refl eq_refl eq_refl).
Defined.

(** ** More on connecting *)

Module ConnectMore.
Import Connect.
Local Open Scope Z_scope.

Lemma step_fulfils c ev v :
  promise c = None → promise (step c ev) = Some (Fulfilled v) →
  ev = Ready ∧ v = VUndefined.
Proof.
  intros Hp. destruct ev as [|e0|hrtime|]; simpl; rewrite ?Hp; simpl.
  - by intros [= <-].
  - congruence.
  - unfold close. destruct (_ >? _); simpl; congruence.
  - destruct (timers c); simpl; congruence.
Qed.

Lemma run_fulfilled evs c v :
  promise c = None → promise (run evs c) = Some (Fulfilled v) →
  v = VUndefined
  ∧ ∃ evs1 evs2, evs = evs1 ++ Ready :: evs2 ∧ promise (run evs1 c) = None.
Proof.
  revert c. induction evs as [|ev evs IH]; intros c Hp Hr.
  - simpl in Hr. congruence.
  - change (run (ev :: evs) c) with (run evs (step c ev)) in Hr.
    destruct (promise (step c ev)) as [o|] eqn:Hs.
    + rewrite (ConnectFacts.run_settled evs _ o Hs) in Hr. injection Hr as ->.
      destruct (step_fulfils c ev v Hp Hs) as [-> ->].
      split; [done|]. by exists [], evs.
    + destruct (IH _ Hs Hr) as (Hv & evs1 & evs2 & -> & Hp1).
      split; [done|]. by exists (ev :: evs1), evs2.
Qed.

Lemma run_app evs1 evs2 c : run (evs1 ++ evs2) c = run evs2 (run evs1 c).
Proof. unfold run. apply fold_left_app. Qed.

Lemma step_attempts c ev :
  (attempts (step c ev) + length (timers (step c ev))
   ≤ attempts c + length (timers c) + connect_closes [ev])%nat
  ∧ (attempts (step c ev) ≤ attempts c + connect_fired [ev])%nat
  ∧ (attempts c ≤ attempts (step c ev))%nat.
Proof.
  unfold connect_closes, connect_fired.
  destruct ev as [|e0|hrtime|]; simpl.
  - destruct (promise c); simpl; lia.
  - destruct (promise c); simpl; lia.
  - destruct (promise c); simpl; [lia|]. unfold close.
    destruct (_ >? _); simpl; rewrite ?length_app; simpl; lia.
  - destruct (timers c) eqn:Ht; simpl; rewrite ?Ht; simpl; lia.
Qed.

Lemma run_attempts evs c :
  (attempts (run evs c) + length (timers (run evs c))
   ≤ attempts c + length (timers c) + connect_closes evs)%nat
  ∧ (attempts (run evs c) ≤ attempts c + connect_fired evs)%nat
  ∧ (attempts c ≤ attempts (run evs c))%nat.
Proof.
  revert c. induction evs as [|ev evs IH]; intros c.
  - simpl. unfold connect_closes, connect_fired. simpl. lia.
  - change (run (ev :: evs) c) with (run evs (step c ev)).
    destruct (IH (step c ev)) as (H1 & H2 & H3).
    destruct (step_attempts c ev) as (G1 & G2 & G3).
    assert (connect_closes (ev :: evs) = connect_closes [ev] + connect_closes evs)%nat as ->.
    { unfold connect_closes. simpl. destruct ev; simpl; lia. }
    assert (connect_fired (ev :: evs) = connect_fired [ev] + connect_fired evs)%nat as ->.
    { unfold connect_fired. simpl. destruct ev; simpl; lia. }
    lia.
Qed.
End ConnectMore.

(** X7.  [connect] resolves exactly when the socket reports ["ready"]
    while the promise is pending: whatever errors and in-time closes came
    before, a ["ready"] event fulfils the promise (with [undefined]), and a
    fulfilled promise always goes back to such an event. *)
Theorem connect_resolves_on_ready path hrtime0 c0 evs :
  Connect.connect path (Connect.defaults hrtime0) = Normal c0 →
  (Connect.promise (Connect.run evs c0) = None →
   ∀ later,
     Connect.promise (Connect.run (evs ++ Connect.Ready :: later) c0)
     = Some (Fulfilled VUndefined))
  ∧ (∀ v, Connect.promise (Connect.run evs c0) = Some (Fulfilled v) →
       v = VUndefined
       ∧ ∃ evs1 evs2,
           evs = evs1 ++ Connect.Ready :: evs2
           ∧ Connect.promise (Connect.run evs1 c0) = None).
Proof.
  unfold Connect.connect. destruct (valid_path path); [|done].
  intros [= <-]. split.
  - intros Hp later. rewrite ConnectMore.run_app.
    change (Connect.run (Connect.Ready :: later) ?c)
      with (Connect.run later (Connect.step c Connect.Ready)).
    apply ConnectFacts.run_settled. simpl. by rewrite Hp.
  - intros v Hv. by apply ConnectMore.run_fulfilled.
Qed.

Lemma connect_resolves_on_ready_witness :
  let refused := Connect.Errored (ConnectionError "ENOENT") in
  ∃ c0,
    Connect.connect (Some "/tmp/mpvsocket") (Connect.defaults 0) = Normal c0
    ∧ Connect.promise
        (Connect.run ([refused; Connect.Close 3000000; Connect.TimerFired]
                      ++ [Connect.Ready]) c0)
      = Some (Fulfilled VUndefined)
    ∧ ∃ evs1 evs2,
        [refused; Connect.Ready] = evs1 ++ Connect.Ready :: evs2.
Proof.
  intros refused. eexists. split; [reflexivity|]. split.
  - exact (proj1 (connect_resolves_on_ready (Some "/tmp/mpvsocket") 0 _
                    [refused; Connect.Close 3000000; Connect.TimerFired]
                    eq_refl) eq_refl []).
  - destruct (proj2 (connect_resolves_on_ready (Some "/tmp/mpvsocket") 0 _
                       [refused; Connect.Ready] eq_refl) VUndefined eq_refl)
      as (_ & evs1 & evs2 & H & _).
    by exists evs1, evs2.
Defined.

(** X8.  [connect] never reconnects on its own: after any events, the
    number of calls of [socket.connect] is at most one plus the number of
    ["close"] events, and at most one plus the number of timer callbacks
    that ran. *)
Theorem connect_attempts_bounded path hrtime0 c0 evs :
  Connect.connect path (Connect.defaults hrtime0) = Normal c0 →
  (1 ≤ Connect.attempts (Connect.run evs c0))%nat
  ∧ (Connect.attempts (Connect.run evs c0) ≤ 1 + connect_closes evs)%nat
  ∧ (Connect.attempts (Connect.run evs c0) ≤ 1 + connect_fired evs)%nat.
Proof.
  unfold Connect.connect. destruct (valid_path path); [|done].
  intros [= <-].
  destruct (ConnectMore.run_attempts evs
              {| Connect.opts := Connect.defaults hrtime0;
                 Connect.error := None; Connect.promise := None;
                 Connect.attempts := 1; Connect.timers := [] |})
    as (H1 & H2 & H3).
  simpl in *. lia.
Qed.

Lemma connect_attempts_bounded_witness :
  ∃ c0,
    Connect.connect (Some "/tmp/mpvsocket") (Connect.defaults 0) = Normal c0
    ∧ (Connect.attempts
         (Connect.run [Connect.Close 1000000; Connect.TimerFired;
                       Connect.TimerFired] c0) ≤ 2)%nat.
Proof.
  eexists. split; [reflexivity|].
  exact (proj1 (proj2 (connect_attempts_bounded (Some "/tmp/mpvsocket") 0 _
                         [Connect.Close 1000000; Connect.TimerFired;
                          Connect.TimerFired] eq_refl))).
Defined.

(** X9.  The decision of the ["close"] listener follows the real elapsed
    time up to one millisecond: with clock readings in nanoseconds, a
    close no later than 5000 ms after the start never rejects, and a close
    5001 ms or more after the start always rejects. *)
Theorem connect_timeout_precision (c : Connect.t) (hrtime0 hrtime : Z) :
  Connect.opts c = Connect.defaults hrtime0 →
  Connect.promise c = None →
  (0 ≤ hrtime0 ≤ hrtime)%Z →
  ((hrtime - hrtime0 ≤ 5000 * 1000000)%Z →
   Connect.promise (Connect.close hrtime c) = None)
  ∧ ((5001 * 1000000 ≤ hrtime - hrtime0)%Z →
     ∃ e, Connect.promise (Connect.close hrtime c) = Some (Rejected e)).
Proof.
  intros Ho Hp Hr. unfold Connect.close, Connect.elapsed. rewrite Ho. simpl.
  rewrite !Z.quot_div_nonneg by lia.
  split; intros H.
  - assert ((hrtime `div` 1000000 - hrtime0 `div` 1000000 >? 5000)%Z = false)
      as ->; [|done].
    rewrite Z.gtb_ltb. apply Z.ltb_ge.
    pose proof (Z.div_mod hrtime 1000000). pose proof (Z.div_mod hrtime0 1000000).
    pose proof (Z.mod_pos_bound hrtime 1000000).
    pose proof (Z.mod_pos_bound hrtime0 1000000). lia.
  - assert ((hrtime `div` 1000000 - hrtime0 `div` 1000000 >? 5000)%Z = true)
      as ->; [|by eexists].
    rewrite Z.gtb_ltb. apply Z.ltb_lt.
    pose proof (Z.div_mod hrtime 1000000). pose proof (Z.div_mod hrtime0 1000000).
    pose proof (Z.mod_pos_bound hrtime 1000000).
    pose proof (Z.mod_pos_bound hrtime0 1000000). lia.
Qed.

Lemma connect_timeout_precision_witness :
  let c := {| Connect.opts := Connect.defaults 999999; Connect.error := None;
              Connect.promise := None; Connect.attempts := 1;
              Connect.timers := [] |} in
  (0 ≤ 999999 ≤ 5000999999)%Z
  ∧ Connect.promise (Connect.close 5000999999 c) = None
  ∧ ∃ e, Connect.promise (Connect.close 5001999999 c) = Some (Rejected e).
Proof.
  intros c. split; [lia|]. split.
  - exact (proj1 (connect_timeout_precision c 999999 5000999999
                    eq_refl eq_refl ltac:(lia)) ltac:(lia)).
  - exact (proj2 (connect_timeout_precision c 999999 5001999999
                    eq_refl eq_refl ltac:(lia)) ltac:(lia)).
Defined.

(** ** Inbound frames *)

(** X11.  A reply is consumed by the request it answers.  After a reply for
    a pending id has been handled, the id is no longer pending: a second
    reply with that id settles nothing; it is ignored when its [error] is
    ["success"] and reported as an error notification when its [error] is
    another value that converts to text.  The request is consumed also
    when the reply cannot be turned into an error message (its [error],
    or an argument of the command, does not convert to text): then
    [handle] throws, and the promise of the request is neither fulfilled
    nor rejected. *)
Theorem reply_consumed k r err d s :
  JsMap.get k (requests s) = Some r →
  let s1 := state_of (handle (reply_frame k err d) s) in
  JsMap.get k (requests s1) = None
  ∧ (∀ d', handle (reply_frame k (VStr "success") d') s1 = Ok s1)
  ∧ (∀ err' d', is_str "success" err' = false → stringifiable err' = true →
       handle (reply_frame k err' d') s1
       = Ok (emit (EmitError (ReplyError (reply_frame k err' d'))) s1))
  ∧ (is_str "success" err = false →
     forallb stringifiable (args r) && stringifiable err = false →
     handle (reply_frame k err d) s = Thrown TypeError s1
     ∧ promises s1 = promises s ∧ emitted s1 = emitted s).
Proof.
  intros Hg s1.
  pose proof (handle_reply k err d r s Hg) as Hh1. cbv zeta in Hh1.
  assert (JsMap.get k (requests s1) = None) as Hnone.
  { subst s1. rewrite Hh1.
    destruct (is_str "success" err);
      [simpl; rewrite settle_only_promises
      |destruct (_ && _); [simpl; rewrite settle_only_promises|]];
      simpl; apply JsMapFacts.get_delete_eq. }
  split; [done|].
  assert (∀ err' d',
            handle (reply_frame k err' d') s1
            = if is_str "success" err' then Ok s1
              else if stringifiable err'
              then Ok (emit (EmitError (ReplyError (reply_frame k err' d'))) s1)
              else Thrown TypeError s1)
    as Hh.
  { intros err' d'. unfold handle, reply_frame. cbn [field assoc String.eqb].
    simpl. unfold request_of. by rewrite as_id_VId, Hnone. }
  split_and!.
  - intros d'. by rewrite Hh.
  - intros err' d' He Hs. by rewrite Hh, He, Hs.
  - intros He Hs. subst s1. rewrite Hh1, He, Hs. done.
Qed.

Lemma reply_consumed_witness :
  let ok := reply_frame 1 (VStr "success") (VNum (1 # 2)) in
  let bad := reply_frame 1 (VObj [("toString", VNull)]) VNull in
  (request_id <$> (message <$> JsMap.get 1 (requests started_one_pending)))
  = Some 1
  ∧ handle ok (state_of (handle ok started_one_pending))
    = Ok (state_of (handle ok started_one_pending))
  ∧ handle bad started_one_pending
    = Thrown TypeError (state_of (handle bad started_one_pending))
  ∧ JsMap.get 1 (requests (state_of (handle bad started_one_pending))) = None
  ∧ settled (promises (state_of (handle bad started_one_pending))) 
    = settled (promises started_one_pending).
Proof.
  intros ok bad. split; [reflexivity|].
  pose proof (reply_consumed 1 _ (VStr "success") (VNum (1 # 2))
                started_one_pending eq_refl) as (_ & H2 & _).
  pose proof (reply_consumed 1 _ (VObj [("toString", VNull)]) VNull
                started_one_pending eq_refl) as (H1 & _ & _ & H4).
  destruct (H4 eq_refl eq_refl) as (H5 & H6 & _).
  split; [exact (H2 (VNum (1 # 2)))|]. split; [exact H5|].
  split; [exact H1|]. fold bad in H6. by rewrite H6.
Defined.

Lemma forEach_handle_app xs ys s s' :
  forEach_handle xs s = Ok s' →
  forEach_handle (xs ++ ys) s = forEach_handle ys s'.
Proof.
  revert s. induction xs as [|x xs IH]; intros s; cbn [forEach_handle app].
  - by intros [= ->].
  - destruct (handle x s) as [s1|e s1]; [apply IH | done].
Qed.

Lemma set_requests_same s : set_requests (requests s) s = s.
Proof. by destruct s. Qed.

(** The frames [handle] itself throws on. *)
Lemma handle_throwing_frames s :
  handle VNull s = Thrown TypeError s
  ∧ (∀ ev, truthy ev = true → stringifiable ev = false →
       handle (event_frame ev) s = Thrown TypeError s)
  ∧ (∀ k err d, is_str "success" err = false → stringifiable err = false →
       handle (reply_frame k err d) s
       = Thrown TypeError (set_requests (JsMap.delete k (requests s)) s)).
Proof.
  split_and!; [done | |].
  - intros ev Ht Hs. unfold handle, event_frame. cbn [field assoc String.eqb].
    simpl. rewrite Ht, Hs.
    by destruct ev as [| | | |str|l|fs|].
  - intros k err d He Hs. destruct (JsMap.get k (requests s)) as [r|] eqn:Hg.
    + rewrite (handle_reply k err d r s Hg). cbv zeta.
      by rewrite He, Hs, andb_false_r.
    + unfold handle, reply_frame. cbn [field assoc String.eqb]. simpl.
      unfold request_of. rewrite as_id_VId, Hg, He, Hs.
      by rewrite JsMapFacts.delete_notin, set_requests_same.
Qed.

(** X12.  [data] stops at the first frame [handle] throws on, though every
    line of the chunk was parsed before: the frames before it are
    dispatched, the frames after it are dropped.  [handle] throws a
    [TypeError] on the frame [null], on an event whose name does not
    convert to text, and on a failing reply whose [error] does not
    convert to text; in all three cases it emits nothing, calls no
    subscriber and settles no promise. *)
Theorem data_stops_at_throwing_frame parse trim chunk s xs before x after s' :
  Forall2 (fun l x => parse (trim l) = Some x)
          (List.filter nonempty (split_lines [] chunk)) xs →
  xs = before ++ x :: after →
  forEach_handle before s = Ok s' →
  x = VNull
  ∨ (∃ ev, x = event_frame ev ∧ truthy ev = true ∧ stringifiable ev = false)
  ∨ (∃ k err d, x = reply_frame k err d ∧ is_str "success" err = false
                ∧ stringifiable err = false) →
  ∃ s'', data parse trim chunk s = Thrown TypeError s''
         ∧ emitted s'' = emitted s' ∧ invoked s'' = invoked s'
         ∧ promises s'' = promises s' ∧ written s'' = written s'.
Proof.
  intros Hp -> Hb Hx. unfold data.
  rewrite (parse_all_succeeds _ _ _ _ Hp), (forEach_handle_app _ _ _ _ Hb).
  cbn [forEach_handle].
  destruct (handle_throwing_frames s') as (H1 & H2 & H3).
  destruct Hx as [-> | [(ev & -> & Ht & Hs) | (k & err & d & -> & He & Hs)]].
  - rewrite H1. by exists s'.
  - rewrite (H2 ev Ht Hs). by exists s'.
  - rewrite (H3 k err d He Hs). by eexists.
Qed.

Lemma data_stops_at_throwing_frame_witness :
  let chunk := pause_text +:+ line_break +:+ "null" +:+ line_break
               +:+ pause_text in
  Forall2 (fun l x => parse_sample_null (trim_sample l) = Some x)
          (List.filter nonempty (split_lines [] chunk))
          [pause_frame; VNull; pause_frame]
  ∧ forEach_handle [pause_frame] started
    = Ok (emit (EmitEvent (VStr "pause") pause_frame) started)
  ∧ ∃ s'', data parse_sample_null trim_sample chunk started
           = Thrown TypeError s''
           ∧ emitted s'' = [EmitEvent (VStr "pause") pause_frame].
Proof.
  intros chunk.
  assert (Forall2 (fun l x => parse_sample_null (trim_sample l) = Some x)
            (List.filter nonempty (split_lines [] chunk))
            [pause_frame; VNull; pause_frame]) as Hp
    by (repeat constructor).
  split; [exact Hp|]. split; [reflexivity|].
  destruct (data_stops_at_throwing_frame parse_sample_null trim_sample chunk
              started _ [pause_frame] VNull [pause_frame] _ Hp eq_refl eq_refl
              (or_introl eq_refl)) as (s'' & H1 & H2 & _).
  exists s''. split; [exact H1|]. rewrite H2. reflexivity.
Defined.

(** ** Framing *)

Lemma split_lines_line l acc rest :
  one_line l →
  split_lines acc (l +:+ rest)
  = split_lines (rev (String.list_ascii_of_string l) ++ acc) rest.
Proof.
  revert acc. induction l as [|c l IH]; intros acc Hl; [done|].
  unfold one_line in *. simpl in Hl.
  assert (Ascii.eqb c LF = false) as Hc.
  { apply Ascii.eqb_neq. intros ->. apply Hl. by left. }
  change (String c l +:+ rest) with (String c (l +:+ rest)).
  cbn [split_lines]. rewrite Hc, IH by tauto.
  simpl. by rewrite <- app_assoc.
Qed.

Lemma split_lines_last l acc :
  one_line l →
  split_lines acc l
  = [String.string_of_list_ascii
       (rev (rev (String.list_ascii_of_string l) ++ acc))].
Proof.
  revert acc. induction l as [|c l IH]; intros acc Hl; [done|].
  unfold one_line in *. simpl in Hl.
  assert (Ascii.eqb c LF = false) as Hc.
  { apply Ascii.eqb_neq. intros ->. apply Hl. by left. }
  cbn [split_lines]. rewrite Hc, IH by tauto.
  simpl. by rewrite <- app_assoc.
Qed.

Lemma string_of_rev_rev l :
  String.string_of_list_ascii (rev (rev (String.list_ascii_of_string l))) = l.
Proof. by rewrite rev_involutive, String.string_of_list_ascii_of_string. Qed.

Lemma string_of_list_app l1 l2 :
  String.string_of_list_ascii (l1 ++ l2)
  = String.string_of_list_ascii l1 +:+ String.string_of_list_ascii l2.
Proof.
  induction l1 as [|c l1 IH]; [done|].
  change (String c (String.string_of_list_ascii (l1 ++ l2))
          = String c (String.string_of_list_ascii l1
                      +:+ String.string_of_list_ascii l2)).
  by rewrite IH.
Qed.

Lemma chomp_cr_no_trailing l :
  no_trailing_cr l →
  chomp_cr (rev (String.list_ascii_of_string l))
  = rev (String.list_ascii_of_string l).
Proof.
  intros Hl. unfold chomp_cr.
  destruct (rev (String.list_ascii_of_string l)) as [|c r] eqn:Hr; [done|].
  destruct (Ascii.eqb c CR) eqn:Hc; [|done]. exfalso.
  apply Ascii.eqb_eq in Hc as ->.
  apply (Hl (String.string_of_list_ascii (rev r))).
  rewrite <- (String.string_of_list_ascii_of_string l).
  rewrite <- (rev_involutive (String.list_ascii_of_string l)), Hr.
  simpl. by rewrite string_of_list_app.
Qed.

(** X13.  Splitting is the inverse of joining: frames that contain no line
    feed, joined by carriage return plus line feed, are split back into
    exactly those frames; joined by line feeds alone they are, too, as
    long as no frame ends with a carriage return. *)
Theorem split_lines_join lines :
  lines ≠ [] → Forall one_line lines →
  split_lines [] (join_lines CRLF lines) = lines
  ∧ (Forall no_trailing_cr lines →
     split_lines [] (join_lines line_break lines) = lines).
Proof.
  intros Hne Hl. destruct lines as [|l rest]; [done|]. clear Hne.
  revert l Hl. induction rest as [|l2 rest IH]; intros l Hl;
    apply Forall_cons in Hl as [H1 Hl].
  - cbn [join_lines]. rewrite split_lines_last by done.
    by rewrite app_nil_r, string_of_rev_rev.
  - destruct (IH l2 Hl) as [IH1 IH2]. cbn [join_lines]. split.
    + rewrite split_lines_line by done.
      change (CRLF +:+ ?x) with (String CR (String LF x)).
      cbn [split_lines].
      replace (Ascii.eqb CR LF) with false by reflexivity.
      replace (Ascii.eqb LF LF) with true by reflexivity.
      cbn [chomp_cr]. replace (Ascii.eqb CR CR) with true by reflexivity.
      rewrite app_nil_r, string_of_rev_rev. f_equal. apply IH1.
    + intros Hc. apply Forall_cons in Hc as [Hc1 Hc].
      rewrite split_lines_line by done.
      change (line_break +:+ ?x) with (String LF x). cbn [split_lines].
      replace (Ascii.eqb LF LF) with true by reflexivity.
      rewrite app_nil_r, chomp_cr_no_trailing, string_of_rev_rev by done.
      f_equal. by apply IH2.
Qed.

Lemma split_lines_join_witness :
  ["{}"; "{"] ≠ ([] : list string)
  ∧ Forall one_line ["{}"; "{"]
  ∧ Forall no_trailing_cr ["{}"; "{"]
  ∧ split_lines [] ("{}" +:+ CRLF +:+ "{") = ["{}"; "{"]
  ∧ split_lines [] ("{}" +:+ line_break +:+ "{") = ["{}"; "{"].
Proof.
  assert (Forall one_line ["{}"; "{"]) as H1.
  { repeat constructor; intros H; vm_compute in H;
      repeat (destruct H as [H|H]; [discriminate H|]); exact H. }
  assert (Forall no_trailing_cr ["{}"; "{"]) as H2.
  { repeat constructor; intros l' H;
      destruct l' as [|c1 [|c2 l']]; try discriminate H;
      destruct l'; discriminate H. }
  split; [discriminate|]. split; [exact H1|]. split; [exact H2|].
  split.
  - exact (proj1 (split_lines_join ["{}"; "{"] ltac:(discriminate) H1)).
  - exact (proj2 (split_lines_join ["{}"; "{"] ltac:(discriminate) H1) H2).
Defined.
